(** * react-key-context: key-scoped observable stores behind a prototype chain

    A shallow embedding of [src/KeyContext.tsx]:
    - [createStore] and its four closures ([getValue], [setValue],
      [subscribe], [notify]) over a JavaScript [Set] of listeners;
    - the scope objects built by [KeyContextProvider] with
      [Object.create] and a property assignment;
    - [useKeyContext]'s [getSnapshot], a property read along the prototype
      chain followed by [getValue].

    The host framework is kept at its interface: the ambient context value
    is an explicit argument, and the three hooks the provider uses
    ([useRef], [useEffect], [useMemo]) are a record of per-instance cells. *)

From stdpp Require Import base option list strings gmap.

(** ** Values and identity *)

(** Whatever a provider is given as [value]. Numbers are their IEEE-754
    datum with a single NaN, objects are their identity, so that
    [Object.is] (SameValue) is equality of the representation. *)
Inductive Value :=
| VUndefined
| VNull
| VBool (b : bool)
| VNumber (datum : Z)
| VString (s : string)
| VObject (identity : nat).

#[global] Instance Value_eq_dec : EqDecision Value.
Proof. solve_decision. Defined.

Definition Object_is (x y : Value) : bool := bool_decide (x = y).

(** A listener is a function object; only its identity matters to the
    [Set] that holds it. *)
Definition Listener := nat.

(** ** [Set<Listener>]

    The entries of a JavaScript [Set] in insertion order. [delete] leaves
    an empty mark ([None]) in place of the entry, which is what lets a
    running [forEach] keep its index while entries come and go. *)
Abbreviation SetData := (list (option Listener)).

Definition Set_has (l : Listener) (s : SetData) : bool :=
  bool_decide (Some l ∈ s).

Definition Set_add (l : Listener) (s : SetData) : SetData :=
  if Set_has l s then s else s ++ [Some l].

Fixpoint Set_delete (l : Listener) (s : SetData) : bool * SetData :=
  match s with
  | [] => (false, [])
  | e :: rest =>
      if decide (e = Some l) then (true, None :: rest)
      else let '(found, rest') := Set_delete l rest in (found, e :: rest')
  end.

(** The listeners currently in the set, in insertion order. *)
Definition registered (s : SetData) : list Listener := omap id s.

(** No listener occupies two entries. *)
Definition SetData_ok (s : SetData) : Prop :=
  ∀ i j l, s !! i = Some (Some l) → s !! j = Some (Some l) → i = j.

(** ** The store *)

(** The two variables [createStore] closes over. *)
Record Store := mkStore {
  value : Value;
  listeners : SetData;
}.

Definition createStore (initialValue : Value) : Store :=
  {| value := initialValue; listeners := [] |}.

Definition getValue (st : Store) : Value := value st.

(** [subscribe] adds the listener and returns the closure
    [() => listeners.delete(listener)], here a function on the store that
    also gives the boolean [delete] returns. *)
Definition unsubscribe (listener : Listener) (st : Store) : bool * Store :=
  let '(found, s) := Set_delete listener (listeners st) in
  (found, {| value := value st; listeners := s |}).

Definition subscribe (listener : Listener) (st : Store)
  : Store * (Store → bool * Store) :=
  ({| value := value st; listeners := Set_add listener (listeners st) |},
   unsubscribe listener).

(** What a listener does to the store that calls it. *)
Inductive Action :=
| CallUnsubscribe (l : Listener)
| CallSubscribe (l : Listener)
| CallSetValue (v : Value)
| CallNotify.

(** A running store: its state and the listeners invoked so far. *)
Record Exec := mkExec {
  cell : Store;
  trace : list Listener;
}.

Definition start (st : Store) : Exec := {| cell := st; trace := [] |}.

Definition invoked (l : Listener) (x : Exec) : Exec :=
  {| cell := cell x; trace := trace x ++ [l] |}.

Definition with_cell (f : Store → Store) (x : Exec) : Exec :=
  {| cell := f (cell x); trace := trace x |}.

Definition store_value (v : Value) (st : Store) : Store :=
  {| value := v; listeners := listeners st |}.

(** [setValue], with the [forEach] it ends in left open. *)
Definition setValue_with (forEachListener : Exec → option Exec)
    (newValue : Value) (x : Exec) : option Exec :=
  if Object_is (value (cell x)) newValue then Some x
  else forEachListener (with_cell (store_value newValue) x).

Section store.
(** The body of every listener function. *)
Variable body : Listener → list Action.

Fixpoint run_actions (forEachListener : Exec → option Exec)
    (acts : list Action) (x : Exec) : option Exec :=
  match acts with
  | [] => Some x
  | a :: rest =>
      match
        match a with
        | CallUnsubscribe l => Some (with_cell (λ st, (unsubscribe l st).2) x)
        | CallSubscribe l => Some (with_cell (λ st, (subscribe l st).1) x)
        | CallSetValue v => setValue_with forEachListener v x
        | CallNotify => forEachListener x
        end
      with
      | Some x' => run_actions forEachListener rest x'
      | None => None
      end
  end.

(** [listeners.forEach((l) => l())] from entry [index] on: the entry is
    read when its turn comes, empty marks are skipped, entries appended
    meanwhile are reached. [None] is a run that needs more than [fuel]
    steps. *)
Fixpoint forEach (fuel : nat) (index : nat) (x : Exec) : option Exec :=
  match fuel with
  | 0 => None
  | S fuel' =>
      match listeners (cell x) !! index with
      | None => Some x
      | Some None => forEach fuel' (S index) x
      | Some (Some l) =>
          match run_actions (forEach fuel' 0) (body l) (invoked l x) with
          | Some x' => forEach fuel' (S index) x'
          | None => None
          end
      end
  end.

Definition setValue (fuel : nat) (newValue : Value) (x : Exec) : option Exec :=
  setValue_with (forEach fuel 0) newValue x.

Definition notify (fuel : nat) (x : Exec) : option Exec := forEach fuel 0 x.
End store.

(** How often a run invoked a listener. *)
Definition invocations (l : Listener) (x : Exec) : nat :=
  length (filter (λ l', l' = l) (trace x)).

(** [s'] is [s] with some entries emptied. *)
Definition shrinks (s s' : SetData) : Prop :=
  length s' = length s ∧
  ∀ i l, s' !! i = Some (Some l) → s !! i = Some (Some l).

(** Listeners that do nothing but call unsubscribe functions. *)
Definition removal_only (acts : list Action) : Prop :=
  ∀ a, a ∈ acts → ∃ l, a = CallUnsubscribe l.

(** ** Objects and the prototype chain *)

Definition loc := nat.   (* address of a plain object *)
Definition sref := nat.  (* address of a store *)

Inductive Ref :=
| RObj (o : loc)
| RStore (s : sref).

(** What a property can hold or a property read can give. *)
Inductive JSVal :=
| JUndefined
| JNull
| JStore (s : sref)
| JObj (o : loc)
| JFunction (name : string).

(** [ProtoAccessor] is the getter and setter pair that
    [Object.prototype] carries under ["__proto__"]. *)
Inductive Property :=
| DataProp (v : JSVal)
| ProtoAccessor.

Record JSObject := mkObject {
  proto : option Ref;
  props : gmap string Property;
}.

Abbreviation Heap := (list JSObject).

#[global] Instance Ref_eq_dec : EqDecision Ref.
Proof. solve_decision. Defined.
#[global] Instance JSVal_eq_dec : EqDecision JSVal.
Proof. solve_decision. Defined.
#[global] Instance Property_eq_dec : EqDecision Property.
Proof. solve_decision. Defined.

Definition Object_prototype_loc : loc := 0.

Definition Object_prototype : JSObject :=
  {| proto := None;
     props :=
       <["__proto__" := ProtoAccessor]>
         (list_to_map ((λ n, (n, DataProp (JFunction n))) <$>
            ["constructor"; "hasOwnProperty"; "isPrototypeOf";
             "propertyIsEnumerable"; "toLocaleString"; "toString"; "valueOf";
             "__defineGetter__"; "__defineSetter__";
             "__lookupGetter__"; "__lookupSetter__"])) |}.

(** The heap every program starts from. *)
Definition realm : Heap := [Object_prototype].

(** The object literal [createStore] returns: four own methods, and
    [Object.prototype] behind them. *)
Definition store_methods : list string :=
  ["getValue"; "setValue"; "subscribe"; "notify"].

(** The first property named [k] on the chain that starts at [r]:
    [Some None] when the chain ends without one, [None] when the walk
    meets a dangling address or needs more than [fuel] steps. *)
Fixpoint find_property (fuel : nat) (h : Heap) (r : Ref) (k : string)
  : option (option Property) :=
  match fuel with
  | 0 => None
  | S fuel' =>
      match r with
      | RStore _ =>
          if bool_decide (k ∈ store_methods)
          then Some (Some (DataProp (JFunction k)))
          else find_property fuel' h (RObj Object_prototype_loc) k
      | RObj o =>
          match h !! o with
          | None => None
          | Some obj =>
              match props obj !! k with
              | Some p => Some (Some p)
              | None =>
                  match proto obj with
                  | None => Some None
                  | Some r' => find_property fuel' h r' k
                  end
              end
          end
      end
  end.

(** Enough steps for every chain of a heap whose prototypes point to
    older objects. *)
Definition chain_fuel (h : Heap) : nat := length h + 3.

Definition proto_value (p : option Ref) : JSVal :=
  match p with
  | None => JNull
  | Some (RObj o) => JObj o
  | Some (RStore s) => JStore s
  end.

(** [o[k]] *)
Definition Get (h : Heap) (o : loc) (k : string) : option JSVal :=
  match find_property (chain_fuel h) h (RObj o) k with
  | None => None
  | Some None => Some JUndefined
  | Some (Some (DataProp v)) => Some v
  | Some (Some ProtoAccessor) =>
      match h !! o with
      | Some obj => Some (proto_value (proto obj))
      | None => None
      end
  end.

(** [o[k] = store]: an own data property of [o], unless the chain
    answers [k] with the accessor, whose setter replaces the prototype of
    [o] instead. *)
Definition Assign (h : Heap) (o : loc) (k : string) (s : sref) : option Heap :=
  match find_property (chain_fuel h) h (RObj o) k, h !! o with
  | Some (Some ProtoAccessor), Some obj =>
      Some (<[o := {| proto := Some (RStore s); props := props obj |}]> h)
  | Some _, Some obj =>
      Some (<[o := {| proto := proto obj;
                      props := <[k := DataProp (JStore s)]> (props obj) |}]> h)
  | _, _ => None
  end.

(** [Object.create(p)] *)
Definition Object_create (h : Heap) (p : option Ref) : Heap * loc :=
  (h ++ [{| proto := p; props := ∅ |}], length h).

Definition truthy (v : JSVal) : bool :=
  match v with
  | JUndefined | JNull => false
  | _ => true
  end.

(** The objects on the prototype chain of [r], nearest first. *)
Fixpoint proto_chain (fuel : nat) (h : Heap) (r : Ref) : list Ref :=
  match fuel with
  | 0 => []
  | S fuel' =>
      r :: match r with
           | RStore _ => proto_chain fuel' h (RObj Object_prototype_loc)
           | RObj o =>
               match h !! o with
               | Some {| proto := Some r' |} => proto_chain fuel' h r'
               | _ => []
               end
           end
  end.

(** ** The provider *)

Record World := mkWorld {
  heap : Heap;
  stores : list Store;
}.

Definition initial_world : World := {| heap := realm; stores := [] |}.

(** The hook cells of one provider instance: [storeRef.current], the
    dependency the effect last ran for, and the dependencies and value
    [useMemo] keeps. *)
Record ProviderHooks := mkHooks {
  storeRef : option sref;
  effectDeps : option Value;
  memo : option (option loc * string * option loc);
}.

Definition unmounted : ProviderHooks :=
  {| storeRef := None; effectDeps := None; memo := None |}.

(** The function given to [useMemo]. *)
Definition computeScope (h : Heap) (parentScope : option loc)
    (keyName : string) (store : sref) : option (Heap * option loc) :=
  if decide (keyName = "") then Some (h, parentScope)
  else
    let '(h1, newScope) := Object_create h (RObj <$> parentScope) in
    match Assign h1 newScope keyName store with
    | Some h2 => Some (h2, Some newScope)
    | None => None
    end.

(** One evaluation of [KeyContextProvider]: the world and hook cells
    after it, and the scope handed to the children. [useMemo] runs its
    function on the first evaluation and whenever a dependency is not the
    one it saw last. *)
Definition KeyContextProvider (w : World) (hk : ProviderHooks)
    (parentScope : option loc) (keyName : string) (value : Value)
  : option (World * ProviderHooks * option loc) :=
  let '(sts, s) :=
    match storeRef hk with
    | Some s => (stores w, s)
    | None => (stores w ++ [createStore value], length (stores w))
    end in
  match
    match memo hk with
    | Some (p, k, cached) =>
        if decide (p = parentScope ∧ k = keyName) then Some (heap w, cached)
        else computeScope (heap w) parentScope keyName s
    | None => computeScope (heap w) parentScope keyName s
    end
  with
  | Some (h, scope) =>
      Some ({| heap := h; stores := sts |},
            {| storeRef := Some s; effectDeps := effectDeps hk;
               memo := Some (parentScope, keyName, scope) |},
            scope)
  | None => None
  end.

Section effects.
Variable body : Listener → list Action.

(** The effect [storeRef.current?.setValue(value)] with dependencies
    [[value]], run after the evaluation is committed. Gives the
    listeners the store invoked as well. *)
Definition runEffect (fuel : nat) (w : World) (hk : ProviderHooks)
    (value : Value) : option (World * ProviderHooks * list Listener) :=
  let hk' := {| storeRef := storeRef hk; effectDeps := Some value;
                memo := memo hk |} in
  let run :=
    match storeRef hk with
    | None => Some (w, hk', [])
    | Some s =>
        match stores w !! s with
        | None => None
        | Some st =>
            match setValue body fuel value (start st) with
            | Some x =>
                Some ({| heap := heap w; stores := <[s := cell x]> (stores w) |},
                      hk', trace x)
            | None => None
            end
        end
    end in
  match effectDeps hk with
  | Some seen => if Object_is seen value then Some (w, hk, []) else run
  | None => run
  end.
End effects.

(** ** The consumer *)

Inductive Completion (A : Type) :=
| Normal (a : A)
| TypeError.
Arguments Normal {A} a.
Arguments TypeError {A}.

(** [getSnapshot] of [useKeyContext]. A truthy [store] that is not a
    store object has no callable [getValue], and the call throws. *)
Definition getSnapshot (w : World) (scope : option loc) (keyName : string)
  : option (Completion Value) :=
  match scope with
  | None => Some (Normal VUndefined)
  | Some o =>
      match Get (heap w) o keyName with
      | None => None
      | Some store =>
          if truthy store then
            match store with
            | JStore s =>
                match stores w !! s with
                | Some st => Some (Normal (getValue st))
                | None => None
                end
            | _ => Some TypeError
            end
          else Some (Normal VUndefined)
      end
  end.

(** ** Nested providers

    What a position of the tree sees depends on the providers on its path
    from the root only. A path is the list of their [keyName] and [value]
    props, outermost first. *)

Fixpoint render_chain (w : World) (ambient : option loc)
    (bs : list (string * Value))
  : option (World * list (ProviderHooks * option loc)) :=
  match bs with
  | [] => Some (w, [])
  | (k, v) :: inner =>
      match KeyContextProvider w unmounted ambient k v with
      | Some (w1, hk, scope) =>
          match render_chain w1 scope inner with
          | Some (w2, below) => Some (w2, (hk, scope) :: below)
          | None => None
          end
      | None => None
      end
  end.

Record Mounted := mkMounted {
  world : World;
  instances : list ProviderHooks;
  scopes : list (option loc);   (* entry [d]: the scope below [d] providers *)
}.

Section mount.
Variable body : Listener → list Action.

(** Effects run after the whole path is rendered, innermost first. *)
Fixpoint commit_chain (fuel : nat) (w : World)
    (nodes : list (ProviderHooks * Value))
  : option (World * list ProviderHooks) :=
  match nodes with
  | [] => Some (w, [])
  | (hk, v) :: inner =>
      match commit_chain fuel w inner with
      | Some (w1, below) =>
          match runEffect body fuel w1 hk v with
          | Some (w2, hk', _) => Some (w2, hk' :: below)
          | None => None
          end
      | None => None
      end
  end.

Definition mount (fuel : nat) (w : World) (bs : list (string * Value))
  : option Mounted :=
  match render_chain w None bs with
  | Some (w1, rendered) =>
      match commit_chain fuel w1 (zip (rendered.*1) (bs.*2)) with
      | Some (w2, hks) =>
          Some {| world := w2; instances := hks;
                  scopes := None :: rendered.*2 |}
      | None => None
      end
  | None => None
  end.
End mount.

(** [useKeyContext(keyName)] evaluated below the first [d] providers. *)
Definition useKeyContext (m : Mounted) (d : nat) (keyName : string)
  : option (Completion Value) :=
  match scopes m !! d with
  | Some scope => getSnapshot (world m) scope keyName
  | None => None
  end.

(** The bindings in force below a path, as the specification describes
    resolution: the nearest binding of a key wins, and a provider with an
    empty key binds nothing. *)
Definition bind (m : gmap string Value) (b : string * Value)
  : gmap string Value :=
  if decide (b.1 = "") then m else <[b.1 := b.2]> m.

Definition visible (bs : list (string * Value)) : gmap string Value :=
  foldl bind ∅ bs.

(** A provider with these props binds key [K]. *)
Definition binds (K : string) (b : string * Value) : Prop :=
  b.1 = K ∧ b.1 ≠ "".

(** ** Invariants of what providers build *)

(** [scope_binds h scope m]: [scope] is the ambient value providers hand
    down, [null] or an object whose prototype chain consists of objects
    made by [computeScope], each older than the one that inherits from it
    and each with one own property, a store; [m] maps every key to the
    store of the nearest object that has it. *)
Inductive scope_binds (h : Heap) : option loc → gmap string sref → Prop :=
| scope_null : scope_binds h None ∅
| scope_extend o parent k s m :
    h !! o = Some {| proto := RObj <$> parent;
                     props := {[k := DataProp (JStore s)]} |} →
    (∀ p, parent = Some p → p < o) →
    scope_binds h parent m →
    scope_binds h (Some o) (<[k := s]> m).

(** One of the objects [computeScope] makes. *)
Definition scope_object (h : Heap) (r : Ref) : Prop :=
  ∃ o parent k s,
    r = RObj o ∧
    h !! o = Some {| proto := RObj <$> parent;
                     props := {[k := DataProp (JStore s)]} |}.

(** Below [scope], key [k] reads the current value of a store exactly
    when [env] has it. *)
Definition sees (w : World) (scope : option loc) (env : gmap string Value)
  : Prop :=
  ∃ m, scope_binds (heap w) scope m ∧
       ∀ k, match m !! k with
            | Some s => ∃ st, stores w !! s = Some st ∧ env !! k = Some (value st)
            | None => env !! k = None
            end.

(** What [useMemo] holds is what [computeScope] gave for the
    dependencies it holds. *)
Definition memo_ok (h : Heap) (hk : ProviderHooks) : Prop :=
  match memo hk with
  | None => True
  | Some (p, k, cached) =>
      (∀ q, p = Some q → q < length h) ∧
      if decide (k = "") then cached = p
      else ∃ o, cached = Some o ∧ o < length h
  end.

(** The object the instance made itself, if the cached scope is one. *)
Definition own_scope (hk : ProviderHooks) : option loc :=
  match memo hk with
  | Some (_, k, cached) => if decide (k = "") then None else cached
  | None => None
  end.

(** ** Sample inputs *)

(** Listeners that do not touch the store. *)
Definition inert : Listener → list Action := λ _, [].

(** Listener [1] unsubscribes listener [3]. *)
Definition one_removes_three : Listener → list Action :=
  λ l, match l with
       | 1 => [CallUnsubscribe 3]
       | _ => []
       end.

Definition three_listeners : Store :=
  (subscribe 3 (subscribe 2 (subscribe 1 (createStore VNull)).1).1).1.

(** The nesting shown in the README. *)
Definition readme_path : list (string * Value) :=
  [("theme", VString "dark"); ("user", VString "Alice");
   ("theme", VString "light")].

(** A single provider after its first evaluation. *)
Definition theme_world : World :=
  {| heap := realm ++ [{| proto := None;
                          props := {["theme" := DataProp (JStore 0)]} |}];
     stores := [createStore (VString "dark")] |}.

Definition theme_hooks : ProviderHooks :=
  {| storeRef := Some 0; effectDeps := Some (VString "dark");
     memo := Some (None, "theme", Some 1) |}.

(** A provider that binds a key to [undefined]. *)
Definition undefined_world : World :=
  {| heap := realm ++ [{| proto := None;
                          props := {["flag" := DataProp (JStore 0)]} |}];
     stores := [createStore VUndefined] |}.

(** ** The consumer's subscription *)

(** The world with [f] applied to the store at [s]. *)
Definition with_store (s : sref) (f : Store → Store) (w : World) : World :=
  {| heap := heap w; stores := alter f s (stores w) |}.

(** [subscribe] of [useKeyContext]: the world after the call, and the
    function it returns, which is the store's unsubscribe function where a
    store was found and [() => {}] otherwise. A truthy [store] that is
    not a store object has no callable [subscribe], and the call throws. *)
Definition useKeyContext_subscribe (w : World) (scope : option loc)
    (keyName : string) (onStoreChange : Listener)
  : option (Completion (World * (World → World))) :=
  match scope with
  | None => Some (Normal (w, λ w', w'))
  | Some o =>
      match Get (heap w) o keyName with
      | None => None
      | Some store =>
          if truthy store then
            match store with
            | JStore s =>
                match stores w !! s with
                | Some _ =>
                    Some (Normal
                      (with_store s (λ st, (subscribe onStoreChange st).1) w,
                       with_store s (λ st, (unsubscribe onStoreChange st).2)))
                | None => None
                end
            | _ => Some TypeError
            end
          else Some (Normal (w, λ w', w'))
      end
  end.

(** The store each key resolves to below a path whose first provider
    owns store [next]: providers take their stores in order, and one with
    an empty key takes a store and binds nothing. *)
Fixpoint bind_refs (next : sref) (m : gmap string sref)
    (bs : list (string * Value)) : gmap string sref :=
  match bs with
  | [] => m
  | (k, _) :: inner =>
      bind_refs (S next) (if decide (k = "") then m else <[k := next]> m) inner
  end.

(** Listener [1] subscribes listener [4]. *)
Definition one_adds_four : Listener → list Action :=
  λ l, match l with
       | 1 => [CallSubscribe 4]
       | _ => []
       end.

(** Listener [2] unsubscribes and subscribes itself. *)
Definition two_renews_itself : Listener → list Action :=
  λ l, match l with
       | 2 => [CallUnsubscribe 2; CallSubscribe 2]
       | _ => []
       end.

(** Every listener sets the value again that it is notified of. *)
Definition all_set_again (v : Value) : Listener → list Action :=
  λ _, [CallSetValue v].

(** * Proofs *)

(** ** Identity *)

Lemma Object_is_refl v : Object_is v v = true.
Proof. unfold Object_is. by apply bool_decide_eq_true. Qed.

(** ** The listener set *)

Lemma SetData_ok_nil : SetData_ok [].
Proof. intros i j l H. by rewrite lookup_nil in H. Qed.

Lemma SetData_ok_tail e (s : SetData) : SetData_ok (e :: s) → SetData_ok s.
Proof.
  intros Hok i j l Hi Hj.
  assert (S i = S j) by (eapply Hok; by rewrite lookup_cons).
  lia.
Qed.

Lemma Set_has_true l (s : SetData) : Set_has l s = true ↔ Some l ∈ s.
Proof. unfold Set_has. apply bool_decide_eq_true. Qed.

Lemma Set_has_false l (s : SetData) : Set_has l s = false ↔ Some l ∉ s.
Proof. unfold Set_has. apply bool_decide_eq_false. Qed.

Lemma Set_add_has l (s : SetData) : Some l ∈ Set_add l s.
Proof.
  unfold Set_add. destruct (Set_has l s) eqn:E.
  - by apply Set_has_true.
  - apply elem_of_app. right. by apply list_elem_of_singleton.
Qed.

Lemma Set_add_ok l (s : SetData) : SetData_ok s → SetData_ok (Set_add l s).
Proof.
  intros Hok. unfold Set_add. destruct (Set_has l s) eqn:E; [done|].
  apply Set_has_false in E.
  assert (Hin : ∀ i l', s !! i = Some (Some l') → l' ≠ l).
  { intros i l' Hi ->. apply E. by eapply list_elem_of_lookup_2. }
  intros i j l' Hi Hj.
  apply lookup_snoc_Some in Hi as [[Hi1 Hi2]|[Hi1 Hi2]];
    apply lookup_snoc_Some in Hj as [[Hj1 Hj2]|[Hj1 Hj2]].
  - by eapply Hok.
  - exfalso. eapply Hin; [done|]. congruence.
  - exfalso. eapply Hin; [done|]. congruence.
  - congruence.
Qed.

Lemma Set_delete_shrinks l (s : SetData) : shrinks s (Set_delete l s).2.
Proof.
  induction s as [|e s [IHlen IH]]; [done|]. simpl.
  destruct (decide (e = Some l)) as [->|Hne].
  - split; [done|]. intros [|i] l'; simpl; [done|auto].
  - destruct (Set_delete l s) as [found s'] eqn:E. simpl in *.
    split; [simpl; by f_equal|]. intros [|i] l'; simpl; [done|auto].
Qed.

Lemma Set_delete_absent l (s : SetData) :
  Some l ∉ s → Set_delete l s = (false, s).
Proof.
  induction s as [|e s IH]; [done|]. intros Hnot. simpl.
  apply not_elem_of_cons in Hnot as [Hne Hnot].
  destruct (decide (e = Some l)); [congruence|]. by rewrite IH.
Qed.

Lemma Set_delete_gone l (s : SetData) :
  SetData_ok s → Some l ∉ (Set_delete l s).2.
Proof.
  induction s as [|e s IH]; intros Hok; simpl.
  - apply not_elem_of_nil.
  - destruct (decide (e = Some l)) as [->|Hne]; simpl.
    + apply not_elem_of_cons. split; [done|].
      intros [i Hi]%list_elem_of_lookup_1.
      specialize (Hok 0 (S i) l). simpl in Hok. by specialize (Hok eq_refl Hi).
    + specialize (IH (SetData_ok_tail _ _ Hok)).
      destruct (Set_delete l s) as [found s']. simpl in *.
      apply not_elem_of_cons. split; [congruence|done].
Qed.

Lemma Set_delete_other l l' (s : SetData) :
  l' ≠ l → Some l' ∈ (Set_delete l s).2 ↔ Some l' ∈ s.
Proof.
  intros Hne. induction s as [|e s IH]; simpl; [done|].
  destruct (decide (e = Some l)) as [->|He]; simpl.
  - rewrite !elem_of_cons. split; intros [?|?]; auto; congruence.
  - destruct (Set_delete l s) as [found s']. simpl in *.
    rewrite !elem_of_cons. by rewrite IH.
Qed.

Lemma shrinks_trans (s1 s2 s3 : SetData) :
  shrinks s1 s2 → shrinks s2 s3 → shrinks s1 s3.
Proof. intros [L1 H1] [L2 H2]. split; [congruence|]. eauto. Qed.

Lemma shrinks_ok (s s' : SetData) : shrinks s s' → SetData_ok s → SetData_ok s'.
Proof. intros [_ H] Hok i j l Hi Hj. eapply Hok; eauto. Qed.

Lemma shrinks_elem_of (s s' : SetData) l :
  shrinks s s' → Some l ∈ s' → Some l ∈ s.
Proof.
  intros [_ H] [i Hi]%list_elem_of_lookup_1. eapply list_elem_of_lookup_2; eauto.
Qed.

Lemma Set_delete_ok l (s : SetData) :
  SetData_ok s → SetData_ok (Set_delete l s).2.
Proof. apply shrinks_ok, Set_delete_shrinks. Qed.

Lemma registered_elem_of l (s : SetData) : l ∈ registered s ↔ Some l ∈ s.
Proof.
  unfold registered. rewrite list_elem_of_omap. split.
  - intros (e & He & Hid). simpl in Hid. by subst.
  - intros H. by exists (Some l).
Qed.

Lemma registered_NoDup (s : SetData) : SetData_ok s → NoDup (registered s).
Proof.
  induction s as [|e s IH]; intros Hok; [constructor|].
  specialize (IH (SetData_ok_tail _ _ Hok)).
  destruct e as [l|]; [|done].
  change (NoDup (l :: registered s)). constructor; [|done].
  rewrite registered_elem_of. intros [i Hi]%list_elem_of_lookup_1.
  specialize (Hok 0 (S i) l). simpl in Hok. by specialize (Hok eq_refl Hi).
Qed.

Lemma NoDup_occurrences (l : Listener) (t : list Listener) :
  NoDup t →
  length (filter (λ l', l' = l) t) = if bool_decide (l ∈ t) then 1 else 0.
Proof.
  induction 1 as [|a t Hnot Hnd IH]; [done|].
  rewrite filter_cons. destruct (decide (a = l)) as [->|Hne]; simpl.
  - rewrite IH. rewrite (bool_decide_eq_false_2 (l ∈ t)); [|done].
    rewrite bool_decide_eq_true_2; [done|]. by left.
  - rewrite IH. destruct (bool_decide (l ∈ t)) eqn:E.
    + apply bool_decide_eq_true in E. rewrite bool_decide_eq_true_2; [done|].
      by right.
    + apply bool_decide_eq_false in E. rewrite bool_decide_eq_false_2; [done|].
      rewrite elem_of_cons. intros [?|?]; congruence.
Qed.

(** ** The store *)

Lemma unsubscribe_value l st : value (unsubscribe l st).2 = value st.
Proof. unfold unsubscribe. by destruct (Set_delete l (listeners st)). Qed.

Lemma unsubscribe_listeners l st :
  listeners (unsubscribe l st).2 = (Set_delete l (listeners st)).2.
Proof. unfold unsubscribe. by destruct (Set_delete l (listeners st)). Qed.

Lemma unsubscribe_absent l st :
  Some l ∉ listeners st → unsubscribe l st = (false, st).
Proof.
  intros H. unfold unsubscribe. rewrite Set_delete_absent; [|done].
  by destruct st.
Qed.

Lemma createStore_ok v : SetData_ok (listeners (createStore v)).
Proof. apply SetData_ok_nil. Qed.

Lemma subscribe_ok l st :
  SetData_ok (listeners st) → SetData_ok (listeners (subscribe l st).1).
Proof. apply Set_add_ok. Qed.

Lemma unsubscribe_ok l st :
  SetData_ok (listeners st) → SetData_ok (listeners (unsubscribe l st).2).
Proof. rewrite unsubscribe_listeners. apply Set_delete_ok. Qed.

Section store_proofs.
Variable body : Listener → list Action.

(** Whatever the listeners do, a store keeps each of them in one entry
    at most. *)
Lemma run_actions_ok forEachListener acts : ∀ x x',
  (∀ y y', SetData_ok (listeners (cell y)) → forEachListener y = Some y' →
           SetData_ok (listeners (cell y'))) →
  SetData_ok (listeners (cell x)) →
  run_actions forEachListener acts x = Some x' →
  SetData_ok (listeners (cell x')).
Proof.
  induction acts as [|a acts IH]; intros x x' Hf Hok Hrun; simpl in Hrun.
  - by injection Hrun as <-.
  - destruct a as [l|l|v|]; simpl in Hrun.
    + eapply IH; [done| |done]. simpl. by apply unsubscribe_ok.
    + eapply IH; [done| |done]. simpl. by apply Set_add_ok.
    + unfold setValue_with in Hrun.
      destruct (Object_is (value (cell x)) v); [by eapply IH|].
      destruct (forEachListener _) as [x1|] eqn:E; [|done].
      eapply IH; [done| |done]. by eapply Hf; [|done].
    + destruct (forEachListener x) as [x1|] eqn:E; [|done].
      eapply IH; [done| |done]. by eapply Hf.
Qed.

Lemma forEach_ok fuel : ∀ index x x',
  SetData_ok (listeners (cell x)) →
  forEach body fuel index x = Some x' →
  SetData_ok (listeners (cell x')).
Proof.
  induction fuel as [|fuel IH]; intros index x x' Hok Hrun; [done|].
  simpl in Hrun. destruct (listeners (cell x) !! index) as [[l|]|].
  - destruct (run_actions _ _ _) as [x1|] eqn:E; [|done].
    eapply IH; [|done]. eapply (run_actions_ok _ _ (invoked l x)); [|done|done].
    intros y y'. apply IH.
  - by eapply IH.
  - by injection Hrun as <-.
Qed.

(** Listeners that leave the store alone are invoked in insertion
    order, each in its turn. *)
Lemma forEach_inert fuel index x :
  (∀ l, Some l ∈ listeners (cell x) → body l = []) →
  length (listeners (cell x)) - index < fuel →
  forEach body fuel index x =
    Some {| cell := cell x;
            trace := trace x ++ registered (drop index (listeners (cell x))) |}.
Proof.
  revert index x. induction fuel as [|fuel IH]; intros index x Hbody Hlen; [lia|].
  simpl. destruct (listeners (cell x) !! index) as [[l|]|] eqn:E.
  - rewrite (Hbody l); [|by eapply list_elem_of_lookup_2]. simpl.
    apply lookup_lt_Some in E as Hlt.
    rewrite IH; simpl; [|done|lia].
    rewrite (drop_S _ _ _ E). simpl. by rewrite <- app_assoc.
  - apply lookup_lt_Some in E as Hlt.
    rewrite IH; [|done|lia]. by rewrite (drop_S _ _ _ E).
  - apply lookup_ge_None in E. rewrite drop_ge; [|done].
    destruct x. simpl. by rewrite app_nil_r.
Qed.

Lemma run_actions_removal forEachListener acts x :
  removal_only acts →
  ∃ x', run_actions forEachListener acts x = Some x' ∧
        trace x' = trace x ∧
        value (cell x') = value (cell x) ∧
        shrinks (listeners (cell x)) (listeners (cell x')) ∧
        (SetData_ok (listeners (cell x)) →
         ∀ b, CallUnsubscribe b ∈ acts → Some b ∉ listeners (cell x')).
Proof.
  revert x. induction acts as [|a acts IH]; intros x Hrem.
  - exists x. repeat split; try done. intros _ b Hb. by apply elem_of_nil in Hb.
  - destruct (Hrem a) as [l ->]; [by left|]. simpl.
    set (x1 := with_cell (λ st, (unsubscribe l st).2) x).
    destruct (IH x1) as (x' & Hrun & Htr & Hval & Hsh & Hgone).
    { intros a' Ha'. apply Hrem. by right. }
    assert (Hsh1 : shrinks (listeners (cell x)) (listeners (cell x1))).
    { subst x1. simpl. rewrite unsubscribe_listeners. apply Set_delete_shrinks. }
    exists x'. split; [done|]. split; [done|]. split.
    { rewrite Hval. subst x1. simpl. apply unsubscribe_value. }
    split; [by eapply shrinks_trans|].
    intros Hok b [Hb|Hb]%elem_of_cons.
    + injection Hb as ->. intros Hin.
      apply (shrinks_elem_of _ _ _ Hsh) in Hin. revert Hin.
      subst x1. simpl. rewrite unsubscribe_listeners.
      by apply Set_delete_gone.
    + apply Hgone; [|done]. by eapply shrinks_ok.
Qed.

(** With such listeners a notification empties entries at most and
    invokes only what it finds from [index] on. *)
Lemma forEach_removal_sound fuel index x x' :
  (∀ l, Some l ∈ listeners (cell x) → removal_only (body l)) →
  forEach body fuel index x = Some x' →
  ∃ t, trace x' = trace x ++ t ∧
       value (cell x') = value (cell x) ∧
       shrinks (listeners (cell x)) (listeners (cell x')) ∧
       ∀ l, l ∈ t →
         ∃ k, index ≤ k ∧ listeners (cell x) !! k = Some (Some l).
Proof.
  revert index x. induction fuel as [|fuel IH]; intros index x Hbody Hrun; [done|].
  simpl in Hrun. destruct (listeners (cell x) !! index) as [[l|]|] eqn:E.
  - destruct (run_actions_removal (forEach body fuel 0) (body l) (invoked l x))
      as (x1 & Hrun1 & Htr1 & Hval1 & Hsh1 & _).
    { apply Hbody. by eapply list_elem_of_lookup_2. }
    rewrite Hrun1 in Hrun. simpl in *.
    destruct (IH (S index) x1) as (t & Htr & Hval & Hsh & Hpos); [|done|].
    { intros l' Hl'. apply Hbody. by eapply shrinks_elem_of. }
    exists (l :: t). split.
    { rewrite Htr, Htr1. by rewrite <- app_assoc. }
    split; [congruence|]. split; [by eapply shrinks_trans|].
    intros l' [->|Hl']%elem_of_cons.
    + exists index. by split.
    + destruct (Hpos l' Hl') as (k & Hk & Hlk).
      exists k. split; [lia|]. by apply Hsh1.
  - destruct (IH (S index) x) as (t & Htr & Hval & Hsh & Hpos); [done|done|].
    exists t. repeat split; try done; try apply Hsh.
    intros l Hl. destruct (Hpos l Hl) as (k & Hk & Hlk).
    exists k. split; [lia|done].
  - injection Hrun as <-. exists []. rewrite app_nil_r.
    repeat split; try done. intros l Hl. by apply elem_of_nil in Hl.
Qed.

(** And it ends. *)
Lemma forEach_removal_total fuel index x :
  (∀ l, Some l ∈ listeners (cell x) → removal_only (body l)) →
  length (listeners (cell x)) - index < fuel →
  is_Some (forEach body fuel index x).
Proof.
  revert index x. induction fuel as [|fuel IH]; intros index x Hbody Hlen; [lia|].
  simpl. destruct (listeners (cell x) !! index) as [[l|]|] eqn:E.
  - destruct (run_actions_removal (forEach body fuel 0) (body l) (invoked l x))
      as (x1 & -> & _ & _ & Hsh1 & _).
    { apply Hbody. by eapply list_elem_of_lookup_2. }
    apply lookup_lt_Some in E. simpl in *. apply IH.
    + intros l' Hl'. apply Hbody. by eapply shrinks_elem_of.
    + destruct Hsh1 as [-> _]. lia.
  - apply lookup_lt_Some in E. apply IH; [done|lia].
  - done.
Qed.

(** No listener is invoked twice, and an entry that is still there at
    the end had its turn. *)
Lemma forEach_removal_once fuel : ∀ index x x' t,
  SetData_ok (listeners (cell x)) →
  (∀ l, Some l ∈ listeners (cell x) → removal_only (body l)) →
  forEach body fuel index x = Some x' →
  trace x' = trace x ++ t →
  NoDup t ∧
  ∀ k l, index ≤ k → listeners (cell x') !! k = Some (Some l) → l ∈ t.
Proof.
  induction fuel as [|fuel IH]; intros index x x' t Hok Hbody Hrun Htr; [done|].
  simpl in Hrun. destruct (listeners (cell x) !! index) as [[l|]|] eqn:E.
  - destruct (run_actions_removal (forEach body fuel 0) (body l) (invoked l x))
      as (x1 & Hrun1 & Htr1 & _ & Hsh1 & _).
    { apply Hbody. by eapply list_elem_of_lookup_2. }
    rewrite Hrun1 in Hrun. simpl in *.
    assert (Hbody1 : ∀ l', Some l' ∈ listeners (cell x1) → removal_only (body l')).
    { intros l' Hl'. apply Hbody. by eapply shrinks_elem_of. }
    destruct (forEach_removal_sound _ _ _ _ Hbody1 Hrun)
      as (t' & Htr' & _ & Hsh' & Hpos').
    assert (t = l :: t') as ->.
    { rewrite Htr', Htr1 in Htr. rewrite <- app_assoc in Htr.
      by apply app_inv_head in Htr. }
    destruct (IH (S index) x1 x' t') as [Hnd Hsurv]; try done.
    { by eapply shrinks_ok. }
    split.
    + constructor; [|done]. intros Hin.
      destruct (Hpos' l Hin) as (k & Hk & Hlk). apply Hsh1 in Hlk.
      assert (k = index) by (by eapply Hok). lia.
    + intros k l' Hk Hl'. destruct (decide (k = index)) as [->|Hne].
      * apply Hsh', Hsh1 in Hl'. rewrite E in Hl'. injection Hl' as ->. by left.
      * right. apply (Hsurv k); [lia|done].
  - destruct (IH (S index) x x' t) as [Hnd Hsurv]; try done.
    split; [done|]. intros k l Hk Hl.
    destruct (decide (k = index)) as [->|Hne]; [|apply (Hsurv k); [lia|done]].
    destruct (forEach_removal_sound _ _ _ _ Hbody Hrun) as (_ & _ & _ & Hsh & _).
    apply Hsh in Hl. by rewrite E in Hl.
  - injection Hrun as <-.
    assert (t = []) as ->.
    { apply (app_inv_head (trace x)). by rewrite app_nil_r. }
    split; [constructor|]. intros k l Hk Hl.
    apply lookup_ge_None in E. apply lookup_lt_Some in Hl. lia.
Qed.

(** A listener whose only entry lies behind that of the listener that
    removes it is not invoked once the remover has run. *)
Lemma forEach_removed_not_invoked a b i j fuel index x x' t :
  SetData_ok (listeners (cell x)) →
  (∀ l, Some l ∈ listeners (cell x) → removal_only (body l)) →
  (∀ k, listeners (cell x) !! k = Some (Some a) → k = i) →
  (∀ k, listeners (cell x) !! k = Some (Some b) → k = j) →
  i < j →
  CallUnsubscribe b ∈ body a →
  forEach body fuel index x = Some x' →
  trace x' = trace x ++ t →
  a ∈ t → (b ∉ t) ∧ (Some b ∉ listeners (cell x')).
Proof.
  intros Hok Hbody Ha Hb Hij Hunsub. revert index x x' t Hok Hbody Ha Hb.
  induction fuel as [|fuel IH]; intros index x x' t Hok Hbody Ha Hb Hrun Htr Hin;
    [done|].
  simpl in Hrun. destruct (listeners (cell x) !! index) as [[l|]|] eqn:E.
  - destruct (run_actions_removal (forEach body fuel 0) (body l) (invoked l x))
      as (x1 & Hrun1 & Htr1 & Hval1 & Hsh1 & Hgone).
    { apply Hbody. by eapply list_elem_of_lookup_2. }
    rewrite Hrun1 in Hrun. simpl in *.
    assert (Hbody1 : ∀ l', Some l' ∈ listeners (cell x1) → removal_only (body l')).
    { intros l' Hl'. apply Hbody. by eapply shrinks_elem_of. }
    destruct (forEach_removal_sound _ _ _ _ Hbody1 Hrun)
      as (t' & Htr' & _ & Hsh' & Hpos').
    assert (t = l :: t') as ->.
    { rewrite Htr', Htr1 in Htr. rewrite <- app_assoc in Htr.
      by apply app_inv_head in Htr. }
    destruct (decide (l = a)) as [->|Hla].
    + assert (Hb1 : Some b ∉ listeners (cell x1)) by (by apply Hgone).
      split.
      * apply not_elem_of_cons. split.
        { intros ->. specialize (Ha _ E). specialize (Hb _ E). lia. }
        intros Hbt. destruct (Hpos' b Hbt) as (k & _ & Hk).
        apply Hb1. by eapply list_elem_of_lookup_2.
      * intros Hbx. apply Hb1. by eapply shrinks_elem_of.
    + apply elem_of_cons in Hin as [Hin|Hin]; [congruence|].
      destruct (IH (S index) x1 x' t') as [Hbt Hbx]; try done.
      { by eapply shrinks_ok. }
      { intros k Hk. apply Ha. by apply Hsh1. }
      { intros k Hk. apply Hb. by apply Hsh1. }
      split; [|done]. apply not_elem_of_cons. split; [|done].
      intros ->. specialize (Hb _ E). subst index.
      destruct (Hpos' a Hin) as (k & Hk & Hlk).
      assert (k = i) by (apply Ha; by apply Hsh1). lia.
  - eapply (IH (S index) x x' t); eauto.
  - injection Hrun as <-.
    assert (t = []) as ->; [|by apply elem_of_nil in Hin].
    apply (app_inv_head (trace x)). by rewrite app_nil_r.
Qed.

(** C2. [setValue] with a value identical to the stored one changes
    nothing and invokes no listener. With any other value it stores the
    value and notifies: listeners that leave the store alone while they
    are notified are invoked exactly once each, all that are registered
    and no other, before [setValue] returns. Where listeners only
    unsubscribe, none is invoked twice, and each one that is still
    registered when [setValue] returns was invoked exactly once. *)
Theorem setValue_identical_noop_else_notify_once
    (st : Store) (newValue : Value) (fuel : nat) :
  (Object_is (value st) newValue = true →
   setValue body fuel newValue (start st) = Some (start st)) ∧
  (Object_is (value st) newValue = false →
   SetData_ok (listeners st) →
   (∀ l, Some l ∈ listeners st → body l = []) →
   length (listeners st) < fuel →
   ∃ x, setValue body fuel newValue (start st) = Some x ∧
        value (cell x) = newValue ∧
        listeners (cell x) = listeners st ∧
        trace x = registered (listeners st) ∧
        ∀ l, invocations l x = if Set_has l (listeners st) then 1 else 0) ∧
  (Object_is (value st) newValue = false →
   SetData_ok (listeners st) →
   (∀ l, Some l ∈ listeners st → removal_only (body l)) →
   length (listeners st) < fuel →
   ∃ x, setValue body fuel newValue (start st) = Some x ∧
        value (cell x) = newValue ∧
        ∀ l, invocations l x ≤ 1 ∧
             (invocations l x = 1 → Set_has l (listeners st) = true) ∧
             (Set_has l (listeners (cell x)) = true → invocations l x = 1)).
Proof.
  unfold setValue, setValue_with. simpl. split; [|split].
  - by intros ->.
  - intros -> Hok Hbody Hfuel.
    rewrite forEach_inert; simpl; [|done|lia].
    eexists. split; [done|]. simpl. repeat split; try done.
    intros l. unfold invocations. simpl.
    rewrite NoDup_occurrences; [|by apply registered_NoDup].
    unfold Set_has.
    by rewrite (bool_decide_ext _ _ (registered_elem_of l (listeners st))).
  - intros -> Hok Hbody Hfuel.
    set (x0 := with_cell (store_value newValue) (start st)).
    assert (Hbody0 : ∀ l, Some l ∈ listeners (cell x0) → removal_only (body l))
      by done.
    destruct (forEach_removal_total fuel 0 x0 Hbody0) as [x Hrun];
      [simpl; lia|].
    destruct (forEach_removal_sound _ _ _ _ Hbody0 Hrun)
      as (t & Htr & Hval & Hsh & Hpos).
    destruct (forEach_removal_once fuel 0 x0 x t Hok Hbody0 Hrun Htr)
      as [Hnd Hsurv].
    simpl in Htr. subst t.
    exists x. split; [done|]. split; [done|]. intros l.
    unfold invocations. rewrite NoDup_occurrences by done.
    destruct (bool_decide (l ∈ trace x)) eqn:El.
    + apply bool_decide_eq_true in El. split; [lia|]. split; [|done].
      intros _. destruct (Hpos l El) as (k & _ & Hk).
      apply Set_has_true. by eapply list_elem_of_lookup_2.
    + apply bool_decide_eq_false in El. split; [lia|]. split; [done|].
      intros [k Hk]%Set_has_true%list_elem_of_lookup_1.
      exfalso. apply El, (Hsurv k); [lia|done].
Qed.

(** C7. While a store notifies listeners that only call unsubscribe
    functions, a listener [a] that is invoked and unsubscribes a listener
    [b] whose turn has not come yet (its entry lies behind) keeps [b]
    from being invoked in this notification. The notification ends
    normally, and [b] is no longer registered afterwards, so that the
    next notification does not reach it either. *)
Theorem removal_during_notification_skips_removed
    (st : Store) (newValue : Value) (fuel i j : nat) (a b : Listener) :
  SetData_ok (listeners st) →
  (∀ l, Some l ∈ listeners st → removal_only (body l)) →
  listeners st !! i = Some (Some a) →
  listeners st !! j = Some (Some b) →
  i < j →
  CallUnsubscribe b ∈ body a →
  Object_is (value st) newValue = false →
  length (listeners st) < fuel →
  ∃ x, setValue body fuel newValue (start st) = Some x ∧
       value (cell x) = newValue ∧
       (a ∈ trace x →
        (b ∉ trace x) ∧
        Set_has b (listeners (cell x)) = false ∧
        ∃ x2, notify body fuel (start (cell x)) = Some x2 ∧ b ∉ trace x2).
Proof.
  intros Hok Hbody Ha Hb Hij Hunsub Hne Hfuel.
  unfold setValue, setValue_with. simpl. rewrite Hne.
  set (x0 := with_cell (store_value newValue) (start st)).
  assert (Hbody0 : ∀ l, Some l ∈ listeners (cell x0) → removal_only (body l))
    by done.
  destruct (forEach_removal_total fuel 0 x0 Hbody0) as [x Hrun];
    [simpl; lia|].
  destruct (forEach_removal_sound _ _ _ _ Hbody0 Hrun)
    as (t & Htr & Hval & Hsh & Hpos).
  exists x. split; [done|]. split; [done|]. simpl in Htr. subst t. intros Hin.
  destruct (forEach_removed_not_invoked a b i j fuel 0 x0 x (trace x))
    as [Hbt Hbx]; try done.
  { intros k Hk. by eapply Hok. }
  { intros k Hk. by eapply Hok. }
  split; [done|]. split; [by apply Set_has_false|].
  assert (Hbody2 : ∀ l, Some l ∈ listeners (cell (start (cell x))) →
                        removal_only (body l)).
  { intros l Hl. apply Hbody. by eapply (shrinks_elem_of _ _ _ Hsh). }
  destruct (forEach_removal_total fuel 0 (start (cell x)) Hbody2) as [x2 Hrun2].
  { simpl. destruct Hsh as [-> _]. simpl. lia. }
  exists x2. split; [done|].
  destruct (forEach_removal_sound _ _ _ _ Hbody2 Hrun2)
    as (t2 & Htr2 & _ & _ & Hpos2).
  simpl in Htr2. subst t2. intros Hb2.
  destruct (Hpos2 b Hb2) as (k & _ & Hk).
  apply Hbx. by eapply list_elem_of_lookup_2.
Qed.
End store_proofs.

(** C8. The function [subscribe] returns removes the listener it was
    returned for, and leaves the other listeners registered; called again,
    any number of times, it finds nothing to delete and leaves the store
    as it is. *)
Theorem unsubscribe_removes_then_noop (st : Store) (l : Listener) (n : nat) :
  SetData_ok (listeners st) →
  let '(st1, unsub) := subscribe l st in
  let st2 := (unsub st1).2 in
  Set_has l (listeners st1) = true ∧
  Set_has l (listeners st2) = false ∧
  (∀ l', l' ≠ l → Set_has l' (listeners st2) = Set_has l' (listeners st1)) ∧
  value st2 = value st1 ∧
  Nat.iter n (λ s, (unsub s).2) st2 = st2 ∧
  unsub (Nat.iter n (λ s, (unsub s).2) st2) = (false, st2).
Proof.
  intros Hok. simpl.
  set (st1 := {| value := value st; listeners := Set_add l (listeners st) |}).
  assert (Hgone : Some l ∉ listeners (unsubscribe l st1).2).
  { rewrite unsubscribe_listeners. apply Set_delete_gone. by apply Set_add_ok. }
  assert (Hiter : Nat.iter n (λ s, (unsubscribe l s).2) (unsubscribe l st1).2
                  = (unsubscribe l st1).2).
  { induction n as [|n IH]; [done|]. simpl. rewrite IH.
    by rewrite unsubscribe_absent. }
  split; [apply Set_has_true, Set_add_has|].
  split; [by apply Set_has_false|].
  split.
  { intros l' Hne. unfold Set_has. apply bool_decide_ext.
    rewrite unsubscribe_listeners. by apply Set_delete_other. }
  split; [by rewrite unsubscribe_value|].
  split; [done|]. rewrite Hiter. by apply unsubscribe_absent.
Qed.

(** ** Property lookup on scopes *)

Lemma scope_binds_null_inv h m : scope_binds h None m → m = ∅.
Proof. by inversion 1. Qed.

Lemma scope_binds_lt h o m : scope_binds h (Some o) m → o < length h.
Proof. inversion 1; subst. by eapply lookup_lt_Some. Qed.

Lemma scope_binds_app h h' scope m :
  scope_binds h scope m → scope_binds (h ++ h') scope m.
Proof.
  induction 1 as [|o parent k s m Ho Hlt _ IH]; [constructor|].
  econstructor; [|done|done]. by apply lookup_app_l_Some.
Qed.

Lemma find_property_obj fuel h o k obj :
  h !! o = Some obj →
  find_property (S fuel) h (RObj o) k =
    match props obj !! k with
    | Some p => Some (Some p)
    | None =>
        match proto obj with
        | None => Some None
        | Some r' => find_property fuel h r' k
        end
    end.
Proof. intros H. cbn [find_property]. by rewrite H. Qed.

Lemma find_property_scope h scope m :
  scope_binds h scope m →
  ∀ o fuel k, scope = Some o → o < fuel →
    find_property fuel h (RObj o) k = Some (DataProp ∘ JStore <$> m !! k).
Proof.
  induction 1 as [|o parent k s m Ho Hlt Hpar IH]; intros o' fuel k' Heq Hfuel;
    [done|].
  injection Heq as <-. destruct fuel as [|fuel]; [lia|].
  rewrite (find_property_obj _ _ _ _ _ Ho). cbn [props proto].
  destruct (decide (k = k')) as [->|Hne].
  - by rewrite lookup_singleton_eq, lookup_insert_eq.
  - rewrite lookup_singleton_ne, lookup_insert_ne by done.
    destruct parent as [p|]; simpl.
    + apply IH; [done|]. specialize (Hlt p eq_refl). lia.
    + by rewrite (scope_binds_null_inv _ _ Hpar), lookup_empty.
Qed.

Lemma Get_scope h o m k :
  scope_binds h (Some o) m →
  Get h o k = Some (default JUndefined (JStore <$> m !! k)).
Proof.
  intros Hs. unfold Get.
  rewrite (find_property_scope _ _ _ Hs o); [|done|].
  - by destruct (m !! k).
  - apply scope_binds_lt in Hs. unfold chain_fuel. lia.
Qed.

Lemma computeScope_extend h parentScope m keyName s :
  scope_binds h parentScope m →
  keyName ≠ "" →
  computeScope h parentScope keyName s =
    Some (h ++ [{| proto := RObj <$> parentScope;
                   props := {[keyName := DataProp (JStore s)]} |}],
          Some (length h)).
Proof.
  intros Hs Hne. unfold computeScope, Object_create.
  destruct (decide (keyName = "")); [done|].
  set (obj0 := {| proto := RObj <$> parentScope; props := ∅ |}).
  assert (Hfind : ∃ r, find_property (chain_fuel (h ++ [obj0])) (h ++ [obj0])
                         (RObj (length h)) keyName = Some r ∧
                       r ≠ Some ProtoAccessor).
  { assert (Hobj : (h ++ [obj0]) !! length h = Some obj0).
    { by rewrite lookup_app_r, Nat.sub_diag. }
    unfold chain_fuel. rewrite length_app, Nat.add_comm. cbn [length Nat.add].
    rewrite (find_property_obj _ _ _ _ _ Hobj). cbn [props proto obj0].
    rewrite lookup_empty. destruct parentScope as [p|]; cbn [fmap option_fmap option_map].
    - erewrite find_property_scope; [| by apply scope_binds_app | done |].
      + eexists. split; [done|]. by destruct (m !! keyName).
      + apply scope_binds_lt in Hs. lia.
    - by eexists. }
  destruct Hfind as (r & Hr & Hacc). unfold Assign. rewrite Hr.
  rewrite lookup_app_r, Nat.sub_diag by done. simpl.
  assert (Hins : ∀ obj, <[length h := obj]> (h ++ [obj0]) = h ++ [obj]).
  { intros obj. rewrite insert_app_r_alt, Nat.sub_diag by done. done. }
  destruct r as [[v|]|]; [| done |]; by rewrite Hins, insert_empty.
Qed.

(** ** What a position sees *)

Lemma sees_null w : sees w None ∅.
Proof. exists ∅. split; [constructor|]. intros k. by rewrite !lookup_empty. Qed.

Lemma getSnapshot_sees w scope env k :
  sees w scope env →
  getSnapshot w scope k = Some (Normal (default VUndefined (env !! k))).
Proof.
  intros (m & Hs & Hm). specialize (Hm k). destruct scope as [o|]; simpl.
  - rewrite (Get_scope _ _ _ _ Hs). destruct (m !! k) as [s|]; simpl.
    + destruct Hm as (st & -> & ->). done.
    + by rewrite Hm.
  - apply scope_binds_null_inv in Hs. subst m.
    rewrite lookup_empty in Hm. by rewrite Hm.
Qed.

Lemma sees_grow w w' scope env h' sts' :
  heap w' = heap w ++ h' →
  stores w' = stores w ++ sts' →
  sees w scope env → sees w' scope env.
Proof.
  intros Hh Hst (m & Hs & Hm). exists m. split.
  - rewrite Hh. by apply scope_binds_app.
  - intros k. specialize (Hm k). destruct (m !! k) as [s|]; [|done].
    destruct Hm as (st & Hst1 & Henv). exists st. split; [|done].
    rewrite Hst. by apply lookup_app_l_Some.
Qed.

Lemma bind_key env k v : k ≠ "" → bind env (k, v) = <[k := v]> env.
Proof. intros H. unfold bind. simpl. by destruct (decide (k = "")). Qed.

(** The first evaluation of a provider. *)
Lemma KeyContextProvider_mount w ambient env k v :
  sees w ambient env →
  ∃ w' hk scope,
    KeyContextProvider w unmounted ambient k v = Some (w', hk, scope) ∧
    (∃ h', heap w' = heap w ++ h') ∧
    stores w' = stores w ++ [createStore v] ∧
    storeRef hk = Some (length (stores w)) ∧
    effectDeps hk = None ∧
    sees w' scope (bind env (k, v)).
Proof.
  intros Hsees. unfold KeyContextProvider. cbn [storeRef memo unmounted].
  destruct (decide (k = "")) as [->|Hne].
  - unfold computeScope. cbn [decide_rel]. simpl.
    do 3 eexists. split; [done|]. simpl.
    split; [by exists []; rewrite app_nil_r|].
    repeat split; try done.
    eapply (sees_grow w _ _ _ [] [createStore v]); [|done|done].
    simpl. by rewrite app_nil_r.
  - destruct Hsees as (m & Hs & Hm).
    rewrite (computeScope_extend _ _ _ _ _ Hs Hne).
    do 3 eexists. split; [done|]. cbn [heap stores storeRef effectDeps].
    split; [by eexists|]. repeat split; try done.
    rewrite bind_key by done.
    exists (<[k := length (stores w)]> m). cbn [heap stores]. split.
    + econstructor.
      * by rewrite lookup_app_r, Nat.sub_diag.
      * intros p ->. by eapply scope_binds_lt.
      * by apply scope_binds_app.
    + intros k'. cbn [stores]. destruct (decide (k = k')) as [->|Hk].
      * rewrite !lookup_insert_eq. exists (createStore v). split; [|done].
        by rewrite lookup_app_r, Nat.sub_diag.
      * rewrite !lookup_insert_ne by done. specialize (Hm k').
        destruct (m !! k') as [s|]; [|done].
        destruct Hm as (st & Hst & Henv). exists st. split; [|done].
        by apply lookup_app_l_Some.
Qed.

Lemma render_chain_spec bs : ∀ w ambient env,
  sees w ambient env →
  ∃ w' rendered,
    render_chain w ambient bs = Some (w', rendered) ∧
    (∃ h', heap w' = heap w ++ h') ∧
    stores w' = stores w ++ (createStore <$> bs.*2) ∧
    length rendered = length bs ∧
    ∀ d hk scope, rendered !! d = Some (hk, scope) →
      storeRef hk = Some (length (stores w) + d) ∧
      effectDeps hk = None ∧
      sees w' scope (foldl bind env (take (S d) bs)).
Proof.
  induction bs as [|[k v] bs IH]; intros w ambient env Hsees.
  - exists w, []. split; [done|]. split; [by exists []; rewrite app_nil_r|].
    split; [by rewrite app_nil_r|]. split; [done|]. by intros [|d] ??.
  - destruct (KeyContextProvider_mount w ambient env k v Hsees)
      as (w1 & hk & scope & Hrender & [h1 Hh1] & Hst1 & Href & Heff & Hsees1).
    destruct (IH w1 scope _ Hsees1)
      as (w2 & below & Hchain & [h2 Hh2] & Hst2 & Hlen & Hbelow).
    cbn [render_chain]. rewrite Hrender, Hchain.
    exists w2, ((hk, scope) :: below). split; [done|].
    split; [exists (h1 ++ h2); by rewrite Hh2, Hh1, app_assoc|].
    split; [by rewrite Hst2, Hst1, <- app_assoc|].
    split; [by simpl; rewrite Hlen|].
    intros [|d] hk' scope' Hd; simpl in Hd.
    + injection Hd as <- <-. rewrite Nat.add_0_r. repeat split; try done.
      by eapply sees_grow.
    + destruct (Hbelow d hk' scope' Hd) as (Href' & Heff' & Hsees').
      repeat split; try done.
      rewrite Href', Hst1, length_app. simpl. f_equal. lia.
Qed.

Section mount_proofs.
Variable body : Listener → list Action.

(** The effect of a first evaluation finds the value already stored. *)
Lemma runEffect_mount fuel w hk v s :
  storeRef hk = Some s →
  effectDeps hk = None →
  stores w !! s = Some (createStore v) →
  ∃ hk', runEffect body fuel w hk v = Some (w, hk', []).
Proof.
  intros Href Heff Hst. unfold runEffect. rewrite Heff, Href, Hst.
  unfold setValue, setValue_with. simpl. rewrite Object_is_refl.
  eexists. simpl. rewrite list_insert_id by done. by destruct w.
Qed.

Lemma commit_chain_mount fuel w nodes :
  (∀ i hk v, nodes !! i = Some (hk, v) →
     effectDeps hk = None ∧
     ∃ s, storeRef hk = Some s ∧ stores w !! s = Some (createStore v)) →
  ∃ hks, commit_chain body fuel w nodes = Some (w, hks).
Proof.
  induction nodes as [|[hk v] nodes IH]; intros Hnodes; [by exists []|].
  destruct IH as [hks Hhks].
  { intros i hk' v' Hi. by apply (Hnodes (S i)). }
  destruct (Hnodes 0 hk v eq_refl) as (Heff & s & Href & Hst).
  destruct (runEffect_mount fuel w hk v s Href Heff Hst) as [hk' Hrun].
  cbn [commit_chain]. rewrite Hhks, Hrun. by eexists.
Qed.

(** Mounting a path always succeeds, and below its first [d] providers
    a lookup gives what the nearest binding of the key holds. *)
Lemma mount_spec fuel w bs :
  ∃ m, mount body fuel w bs = Some m ∧
       length (scopes m) = S (length bs) ∧
       (∃ h', heap (world m) = heap w ++ h') ∧
       ∀ d scope, scopes m !! d = Some scope →
         sees (world m) scope (visible (take d bs)).
Proof.
  destruct (render_chain_spec bs w None ∅ (sees_null w))
    as (w1 & rendered & Hchain & [h1 Hh1] & Hst1 & Hlen & Hrendered).
  destruct (commit_chain_mount fuel w1 (zip (rendered.*1) (bs.*2))) as [hks Hhks].
  { intros i hk v [hk0 [v0 (Heq & Hhk & Hv)]]%lookup_zip_with_Some.
    injection Heq as -> ->.
    apply list_lookup_fmap_Some in Hhk as ([hk' scope] & -> & Hi).
    destruct (Hrendered i hk' scope Hi) as (Href & Heff & _).
    split; [done|]. exists (length (stores w) + i). split; [done|].
    rewrite Hst1, lookup_app_r by lia.
    replace (length (stores w) + i - length (stores w)) with i by lia.
    by rewrite list_lookup_fmap, Hv. }
  unfold mount. rewrite Hchain, Hhks. eexists. split; [done|].
  cbn [scopes world]. split; [by rewrite length_cons, length_fmap, Hlen|].
  split; [by eexists|].
  intros [|d] scope Hd; simpl in Hd.
  - injection Hd as <-. rewrite take_0. apply sees_null.
  - apply list_lookup_fmap_Some in Hd as ([hk scope'] & -> & Hd).
    by destruct (Hrendered d hk scope' Hd) as (_ & _ & Hsees).
Qed.

Lemma mount_lookup fuel w bs :
  ∃ m, mount body fuel w bs = Some m ∧
       ∀ d k, d ≤ length bs →
         useKeyContext m d k =
           Some (Normal (default VUndefined (visible (take d bs) !! k))).
Proof.
  destruct (mount_spec fuel w bs) as (m & Hm & Hlen & _ & Hsees).
  exists m. split; [done|]. intros d k Hd. unfold useKeyContext.
  destruct (scopes m !! d) as [scope|] eqn:E.
  - apply getSnapshot_sees. by apply Hsees.
  - apply lookup_ge_None in E. lia.
Qed.
End mount_proofs.

(** ** Nearest bindings *)

Lemma bind_lookup_same m K v : K ≠ "" → bind m (K, v) !! K = Some v.
Proof. intros H. rewrite bind_key by done. apply lookup_insert_eq. Qed.

Lemma bind_lookup_other m b J : ¬ binds J b → bind m b !! J = m !! J.
Proof.
  intros H. unfold bind. destruct (decide (b.1 = "")); [done|].
  apply lookup_insert_ne. intros Heq. by apply H.
Qed.

Lemma foldl_bind_other bs : ∀ m J,
  Forall (λ b, ¬ binds J b) bs → foldl bind m bs !! J = m !! J.
Proof.
  induction bs as [|b bs IH]; intros m J Hall; [done|].
  apply Forall_cons in Hall as [Hb Hall]. simpl.
  rewrite IH by done. by apply bind_lookup_other.
Qed.

Lemma foldl_bind_agree bs : ∀ m1 m2 J,
  m1 !! J = m2 !! J → foldl bind m1 bs !! J = foldl bind m2 bs !! J.
Proof.
  induction bs as [|b bs IH]; intros m1 m2 J Heq; [done|].
  simpl. apply IH. unfold bind. destruct (decide (b.1 = "")); [done|].
  destruct (decide (b.1 = J)) as [->|Hne].
  - by rewrite !lookup_insert_eq.
  - by rewrite !lookup_insert_ne.
Qed.

Lemma visible_app bs1 bs2 :
  visible (bs1 ++ bs2) = foldl bind (visible bs1) bs2.
Proof. unfold visible. apply foldl_app. Qed.

Lemma visible_nearest pre K v post :
  K ≠ "" → Forall (λ b, ¬ binds K b) post →
  visible (pre ++ (K, v) :: post) !! K = Some v.
Proof.
  intros HK Hpost. rewrite visible_app. simpl.
  rewrite foldl_bind_other by done. by apply bind_lookup_same.
Qed.

Lemma visible_unbound bs K :
  Forall (λ b, ¬ binds K b) bs → visible bs !! K = None.
Proof. intros H. unfold visible. by rewrite foldl_bind_other. Qed.

Lemma visible_skip pre b post J :
  ¬ binds J b → visible (pre ++ b :: post) !! J = visible (pre ++ post) !! J.
Proof.
  intros H. rewrite !visible_app. simpl. apply foldl_bind_agree.
  by apply bind_lookup_other.
Qed.

Lemma take_past {A} (pre : list A) b rest e :
  take (length pre + 1 + e) (pre ++ b :: rest) = pre ++ b :: take e rest.
Proof.
  rewrite take_app, take_ge by lia.
  by replace (length pre + 1 + e - length pre) with (S e) by lia.
Qed.

Lemma take_upto {A} (pre rest : list A) e :
  take (length pre + e) (pre ++ rest) = pre ++ take e rest.
Proof.
  rewrite take_app, take_ge by lia.
  by replace (length pre + e - length pre) with e by lia.
Qed.

Lemma not_binds_other K b : b.1 ≠ K → ¬ binds K b.
Proof. by intros H [? _]. Qed.

Section lookup_claims.
Variable body : Listener → list Action.

(** C1. Shadowing. On a path that binds [K] to [A] and, further in,
    binds [K] to [B], a lookup of [K] between the two providers gives
    [A], and a lookup of [K] below the inner one gives [B]. *)
Theorem shadowing fuel w pre mid post K A B :
  K ≠ "" →
  Forall (λ b, b.1 ≠ K) mid →
  Forall (λ b, b.1 ≠ K) post →
  ∃ m, mount body fuel w (pre ++ (K, A) :: mid ++ (K, B) :: post) = Some m ∧
       (∀ e, e ≤ length mid →
          useKeyContext m (length pre + 1 + e) K = Some (Normal A)) ∧
       (∀ e, e ≤ length post →
          useKeyContext m (length pre + 1 + length mid + 1 + e) K
            = Some (Normal B)).
Proof.
  intros HK Hmid Hpost.
  destruct (mount_lookup body fuel w (pre ++ (K, A) :: mid ++ (K, B) :: post))
    as (m & Hm & Hlook).
  exists m. split; [done|]. split; intros e He.
  - rewrite Hlook by (rewrite !length_app; simpl; rewrite length_app; simpl; lia).
    rewrite take_past, take_app_le by done.
    rewrite visible_nearest; [done|done|].
    apply Forall_take. eapply Forall_impl; [done|]. apply not_binds_other.
  - rewrite Hlook by (rewrite !length_app; simpl; rewrite length_app; simpl; lia).
    replace (pre ++ (K, A) :: mid ++ (K, B) :: post)
      with ((pre ++ (K, A) :: mid) ++ (K, B) :: post)
      by (by rewrite <- app_assoc).
    replace (length pre + 1 + length mid + 1 + e)
      with (length (pre ++ (K, A) :: mid) + 1 + e)
      by (rewrite length_app; simpl; lia).
    rewrite take_past. rewrite visible_nearest; [done|done|].
    apply Forall_take. eapply Forall_impl; [done|]. apply not_binds_other.
Qed.

(** C3. Absence. Where no provider on the path binds [K], and in
    particular where the ambient scope is [null], a lookup of [K]
    returns [undefined] and does not throw. *)
Theorem absence fuel w bs K :
  Forall (λ b, ¬ binds K b) bs →
  getSnapshot w None K = Some (Normal VUndefined) ∧
  ∃ m, mount body fuel w bs = Some m ∧
       ∀ d, d ≤ length bs → useKeyContext m d K = Some (Normal VUndefined).
Proof.
  intros Hbs. split; [done|].
  destruct (mount_lookup body fuel w bs) as (m & Hm & Hlook).
  exists m. split; [done|]. intros d Hd. rewrite Hlook by done.
  rewrite visible_unbound; [done|]. by apply Forall_take.
Qed.

(** C4. Transparency. A provider of [K] put on a path changes no
    lookup of another key [J] below it; where the nearest provider of
    [J] above is an ancestor of the inserted one, the lookup still gives
    that ancestor's value. *)
Theorem transparency fuel w pre post K J v :
  K ≠ J →
  ∃ m1 m2,
    mount body fuel w (pre ++ (K, v) :: post) = Some m1 ∧
    mount body fuel w (pre ++ post) = Some m2 ∧
    ∀ e, e ≤ length post →
      (∃ r, useKeyContext m1 (length pre + 1 + e) J = Some (Normal r) ∧
            useKeyContext m2 (length pre + e) J = Some (Normal r)) ∧
      ∀ outer A mid,
        pre = outer ++ (J, A) :: mid → J ≠ "" →
        Forall (λ b, b.1 ≠ J) mid →
        Forall (λ b, b.1 ≠ J) (take e post) →
        useKeyContext m1 (length pre + 1 + e) J = Some (Normal A).
Proof.
  intros HKJ.
  destruct (mount_lookup body fuel w (pre ++ (K, v) :: post)) as (m1 & Hm1 & Hlook1).
  destruct (mount_lookup body fuel w (pre ++ post)) as (m2 & Hm2 & Hlook2).
  exists m1, m2. split; [done|]. split; [done|]. intros e He.
  rewrite Hlook1 by (rewrite length_app; simpl; lia).
  rewrite Hlook2 by (rewrite length_app; lia).
  rewrite take_past, take_upto. split.
  - eexists. split; [done|]. rewrite visible_skip; [done|].
    by apply not_binds_other.
  - intros outer A mid -> HJ Hmid Hpost.
    replace ((outer ++ (J, A) :: mid) ++ (K, v) :: take e post)
      with (outer ++ (J, A) :: (mid ++ (K, v) :: take e post))
      by (by rewrite <- app_assoc).
    rewrite visible_nearest; [done|done|].
    apply Forall_app. split; [|apply Forall_cons; split].
    + eapply Forall_impl; [done|]. apply not_binds_other.
    + by apply not_binds_other.
    + eapply Forall_impl; [done|]. apply not_binds_other.
Qed.
End lookup_claims.

(** ** Evaluations of one provider *)

Lemma getSnapshot_grow w w' scope k r sts' :
  heap w' = heap w →
  stores w' = stores w ++ sts' →
  getSnapshot w scope k = Some r → getSnapshot w' scope k = Some r.
Proof.
  intros Hh Hst. unfold getSnapshot. rewrite Hh.
  destruct scope as [o|]; [|done].
  destruct (Get (heap w) o k) as [store|]; [|done].
  destruct (truthy store); [|done]. destruct store; try done.
  destruct (stores w !! s) as [st|] eqn:E; [|done].
  by rewrite Hst, (lookup_app_l_Some _ _ _ _ E).
Qed.

(** An evaluation with an empty key hands the ambient scope on and
    touches no object. *)
Lemma KeyContextProvider_empty_key w hk parentScope value :
  memo_ok (heap w) hk →
  ∃ w' hk' sts',
    KeyContextProvider w hk parentScope "" value = Some (w', hk', parentScope) ∧
    heap w' = heap w ∧ stores w' = stores w ++ sts'.
Proof.
  intros Hok. unfold KeyContextProvider, memo_ok in *.
  assert (Hst : ∃ sts s sts',
             match storeRef hk with
             | Some s => (stores w, s)
             | None => (stores w ++ [createStore value], length (stores w))
             end = (sts, s) ∧ sts = stores w ++ sts').
  { destruct (storeRef hk) as [s|].
    - exists (stores w), s, []. by rewrite app_nil_r.
    - by do 3 eexists. }
  destruct Hst as (sts & s & sts' & -> & ->).
  destruct (memo hk) as [[[p k] cached]|].
  - destruct (decide (p = parentScope ∧ k = "")) as [[-> ->]|Hne].
    + destruct Hok as [_ Hc]. simpl in Hc. subst cached. by do 3 eexists.
    + unfold computeScope. simpl. by do 3 eexists.
  - unfold computeScope. simpl. by do 3 eexists.
Qed.

Lemma render_chain_empty_key bs : ∀ w ambient w' rendered d v,
  render_chain w ambient bs = Some (w', rendered) →
  bs !! d = Some ("", v) →
  (ambient :: rendered.*2) !! S d = (ambient :: rendered.*2) !! d.
Proof.
  induction bs as [|[k0 v0] bs IH]; intros w ambient w' rendered d v Hr Hd;
    [done|].
  cbn [render_chain] in Hr.
  destruct (KeyContextProvider w unmounted ambient k0 v0) as [[[w1 hk] scope]|] eqn:E;
    [|done].
  destruct (render_chain w1 scope bs) as [[w2 below]|] eqn:E2; [|done].
  injection Hr as <- <-. destruct d as [|d]; simpl in Hd.
  - injection Hd as -> ->.
    destruct (KeyContextProvider_empty_key w unmounted ambient v I)
      as (w'' & hk'' & sts' & Hk & _).
    rewrite Hk in E. by injection E as <- <- <-.
  - apply (IH _ _ _ _ _ _ E2 Hd).
Qed.

(** A later evaluation: [useMemo] answers from its cell when both
    dependencies are the ones it holds, and runs [computeScope]
    otherwise. *)
Lemma KeyContextProvider_update w hk p0 k0 r0 parentScope keyName value m :
  memo hk = Some (p0, k0, r0) →
  scope_binds (heap w) parentScope m →
  ∃ w' hk' scope,
    KeyContextProvider w hk parentScope keyName value = Some (w', hk', scope) ∧
    memo hk' = Some (parentScope, keyName, scope) ∧
    if decide (p0 = parentScope ∧ k0 = keyName) then scope = r0 ∧ heap w' = heap w
    else if decide (keyName = "") then scope = parentScope ∧ heap w' = heap w
    else scope = Some (length (heap w)) ∧
         ∃ s, heap w' = heap w ++
                [{| proto := RObj <$> parentScope;
                    props := {[keyName := DataProp (JStore s)]} |}].
Proof.
  intros Hmemo Hs. unfold KeyContextProvider. rewrite Hmemo.
  destruct (match storeRef hk with
            | Some s => (stores w, s)
            | None => (stores w ++ [createStore value], length (stores w))
            end) as [sts s].
  destruct (decide (p0 = parentScope ∧ k0 = keyName)) as [Heq|Hne].
  - by do 3 eexists.
  - destruct (decide (keyName = "")) as [->|Hk].
    + unfold computeScope. simpl. by do 3 eexists.
    + rewrite (computeScope_extend _ _ _ _ _ Hs Hk).
      do 3 eexists. split; [done|]. split; [done|]. split; [done|]. by eexists.
Qed.

(** [memo_ok] holds of an instance that was never evaluated and is kept
    by every evaluation. *)
Lemma memo_ok_unmounted h : memo_ok h unmounted.
Proof. done. Qed.

Lemma KeyContextProvider_memo_ok w hk parentScope keyName value m w' hk' scope :
  memo_ok (heap w) hk →
  scope_binds (heap w) parentScope m →
  KeyContextProvider w hk parentScope keyName value = Some (w', hk', scope) →
  memo_ok (heap w') hk'.
Proof.
  intros Hok Hs. unfold KeyContextProvider.
  destruct (match storeRef hk with
            | Some s => (stores w, s)
            | None => (stores w ++ [createStore value], length (stores w))
            end) as [sts s].
  assert (Hpar : ∀ q, parentScope = Some q → q < length (heap w)).
  { intros q ->. by eapply scope_binds_lt. }
  assert (Hcompute : ∀ h sc,
            computeScope (heap w) parentScope keyName s = Some (h, sc) →
            memo_ok h {| storeRef := Some s; effectDeps := effectDeps hk;
                         memo := Some (parentScope, keyName, sc) |}).
  { intros h sc Hc. unfold memo_ok. simpl.
    destruct (decide (keyName = "")) as [->|Hk].
    - unfold computeScope in Hc. simpl in Hc. injection Hc as <- <-. by split.
    - rewrite (computeScope_extend _ _ _ _ s Hs Hk) in Hc. injection Hc as <- <-.
      rewrite length_app. simpl. split.
      + intros q Hq. specialize (Hpar q Hq). lia.
      + exists (length (heap w)). split; [done|lia]. }
  destruct (memo hk) as [[[p k] cached]|] eqn:Em.
  - destruct (decide (p = parentScope ∧ k = keyName)) as [[-> ->]|Hne].
    + intros [= <- <- <-]. unfold memo_ok in *. by rewrite Em in Hok.
    + destruct (computeScope (heap w) parentScope keyName s) as [[h sc]|] eqn:Ec;
        [|done].
      intros [= <- <- <-]. by apply Hcompute.
  - destruct (computeScope (heap w) parentScope keyName s) as [[h sc]|] eqn:Ec;
      [|done].
    intros [= <- <- <-]. by apply Hcompute.
Qed.

(** ** The chain behind a scope *)

Lemma proto_chain_obj fuel h o obj :
  h !! o = Some obj →
  proto_chain (S fuel) h (RObj o) =
    RObj o :: match proto obj with
              | Some r' => proto_chain fuel h r'
              | None => []
              end.
Proof. intros H. cbn [proto_chain]. rewrite H. by destruct obj as [[?|] ?]. Qed.

Lemma proto_chain_scope h scope m :
  scope_binds h scope m →
  ∀ o fuel, scope = Some o → o < fuel →
    Forall (scope_object h) (proto_chain fuel h (RObj o)) ∧
    ∃ root obj, last (proto_chain fuel h (RObj o)) = Some (RObj root) ∧
                h !! root = Some obj ∧ proto obj = None.
Proof.
  induction 1 as [|o parent k s m Ho Hlt Hpar IH]; intros o' fuel Heq Hfuel;
    [done|].
  injection Heq as <-. destruct fuel as [|fuel]; [lia|].
  rewrite (proto_chain_obj _ _ _ _ Ho). cbn [proto].
  assert (Hself : scope_object h (RObj o)) by (by exists o, parent, k, s).
  destruct parent as [p|]; cbn [fmap option_fmap option_map].
  - destruct (IH p fuel eq_refl) as (Hall & root & obj & Hlast & Hroot & Hnull).
    { specialize (Hlt p eq_refl). lia. }
    split; [by constructor|]. exists root, obj. split; [|done].
    by rewrite last_cons, Hlast.
  - split; [by repeat constructor|]. by eexists _, _.
Qed.

Lemma Object_prototype_not_scope h :
  h !! Object_prototype_loc = Some Object_prototype →
  ¬ scope_object h (RObj Object_prototype_loc).
Proof.
  intros H0 (o & parent & k & s & [= <-] & Ho).
  rewrite H0 in Ho.
  assert (Heq : Object_prototype =
                {| proto := RObj <$> parent;
                   props := {[k := DataProp (JStore s)]} |}) by congruence.
  assert (Hts : props Object_prototype !! "toString"
                = Some (DataProp (JFunction "toString"))) by done.
  rewrite Heq in Hts. cbn [props] in Hts.
  destruct (decide (k = "toString")) as [->|Hne].
  - by rewrite lookup_singleton_eq in Hts.
  - by rewrite lookup_singleton_ne in Hts.
Qed.

Section provider_claims.
Variable body : Listener → list Action.

(** C5. When a provider is evaluated again, the scope it hands to its
    children is the object of the previous evaluation exactly when
    neither its key nor the identity of the ambient scope changed; in
    that case nothing is allocated. When one of them changed and the
    key is not empty, the scope is an object allocated by this
    evaluation. The ambient scope is one that providers built, and not
    the object this instance built itself. *)
Theorem scope_identity_stable w hk p0 k0 r0 parentScope keyName value m :
  memo hk = Some (p0, k0, r0) →
  memo_ok (heap w) hk →
  scope_binds (heap w) parentScope m →
  (∀ o, own_scope hk = Some o → parentScope ≠ Some o) →
  ∃ w' hk' scope,
    KeyContextProvider w hk parentScope keyName value = Some (w', hk', scope) ∧
    (scope = r0 ↔ parentScope = p0 ∧ keyName = k0) ∧
    (parentScope = p0 ∧ keyName = k0 → heap w' = heap w) ∧
    (¬ (parentScope = p0 ∧ keyName = k0) → keyName ≠ "" →
       scope = Some (length (heap w)) ∧
       heap w !! length (heap w) = None ∧
       is_Some (heap w' !! length (heap w))) ∧
    (¬ (parentScope = p0 ∧ keyName = k0) → keyName = "" →
       scope = parentScope ∧ heap w' = heap w).
Proof.
  intros Hmemo Hok Hs Hown.
  destruct (KeyContextProvider_update w hk p0 k0 r0 parentScope keyName value m
              Hmemo Hs) as (w' & hk' & scope & Hrun & _ & Hcase).
  exists w', hk', scope. split; [done|].
  unfold memo_ok in Hok. unfold own_scope in Hown. rewrite Hmemo in Hok, Hown.
  destruct Hok as [Hp0 Hr0].
  destruct (decide (p0 = parentScope ∧ k0 = keyName)) as [[-> ->]|Hne].
  - destruct Hcase as [-> Hheap]. split; [done|]. split; [done|].
    split; intros Hchanged; by destruct Hchanged.
  - assert (Hne' : ¬ (parentScope = p0 ∧ keyName = k0)) by (intros [-> ->]; auto).
    split; [|split; [done|split]].
    + split; [|done]. intros ->. exfalso.
      destruct (decide (keyName = "")) as [->|Hk];
        destruct Hcase as [Hsc _];
        destruct (decide (k0 = "")) as [->|Hk0].
      * apply Hne. split; [by rewrite <- Hr0|done].
      * destruct Hr0 as (o & Hr0 & _). apply (Hown o); by rewrite <- ?Hr0.
      * assert (length (heap w) < length (heap w)); [|lia].
        apply Hp0. by rewrite <- Hr0.
      * destruct Hr0 as (o & Hr0 & Ho). rewrite Hr0 in Hsc.
        injection Hsc as ->. lia.
    + intros _ Hk. destruct (decide (keyName = "")); [done|].
      destruct Hcase as [-> [s ->]]. split; [done|]. split.
      * by apply lookup_ge_None.
      * rewrite lookup_app_r, Nat.sub_diag by done. by eexists.
    + intros _ ->. by destruct (decide ("" = "")).
Qed.

(** C6. A provider whose key is the empty string hands its children
    the ambient scope itself, creates and changes no object, and does
    not fail; every lookup below it gives what it gives without the
    provider. *)
Theorem empty_key_pass_through fuel w hk parentScope value pre post :
  memo_ok (heap w) hk →
  (∃ w' hk',
     KeyContextProvider w hk parentScope "" value = Some (w', hk', parentScope) ∧
     heap w' = heap w ∧
     ∀ k r, getSnapshot w parentScope k = Some r →
            getSnapshot w' parentScope k = Some r) ∧
  ∃ m1 m2,
    mount body fuel w (pre ++ ("", value) :: post) = Some m1 ∧
    mount body fuel w (pre ++ post) = Some m2 ∧
    scopes m1 !! S (length pre) = scopes m1 !! length pre ∧
    ∀ e k, e ≤ length post →
      ∃ r, useKeyContext m1 (length pre + 1 + e) k = Some (Normal r) ∧
           useKeyContext m2 (length pre + e) k = Some (Normal r).
Proof.
  intros Hok. split.
  - destruct (KeyContextProvider_empty_key w hk parentScope value Hok)
      as (w' & hk' & sts' & Hrun & Hheap & Hst).
    exists w', hk'. split; [done|]. split; [done|].
    intros k r. by eapply getSnapshot_grow.
  - destruct (mount_lookup body fuel w (pre ++ ("", value) :: post))
      as (m1 & Hm1 & Hlook1).
    destruct (mount_lookup body fuel w (pre ++ post)) as (m2 & Hm2 & Hlook2).
    exists m1, m2. split; [done|]. split; [done|]. split.
    + unfold mount in Hm1.
      destruct (render_chain w None (pre ++ ("", value) :: post))
        as [[w1 rendered]|] eqn:Er; [|done].
      destruct (commit_chain body fuel w1 _) as [[w2 hks]|]; [|done].
      injection Hm1 as <-. cbn [scopes].
      eapply render_chain_empty_key; [done|].
      by rewrite lookup_app_r, Nat.sub_diag.
    + intros e k He.
      rewrite Hlook1 by (rewrite length_app; simpl; lia).
      rewrite Hlook2 by (rewrite length_app; lia).
      rewrite take_past, take_upto. eexists. split; [done|].
      rewrite visible_skip; [done|]. by intros [_ ?].
Qed.

(** C10. Every scope chain ends in an object whose prototype is
    [null], and [Object.prototype] is not on it. So for every key, the
    names of the members of [Object.prototype] among them, a lookup of a
    key no provider binds gives [undefined], and a lookup of a bound key
    gives the value of the nearest provider. *)
Theorem null_prototype_root fuel w bs :
  heap w !! Object_prototype_loc = Some Object_prototype →
  ∃ m, mount body fuel w bs = Some m ∧
    ∀ d, d ≤ length bs →
      (∃ scope, scopes m !! d = Some scope ∧
         ∀ o, scope = Some o →
           let h := heap (world m) in
           let chain := proto_chain (chain_fuel h) h (RObj o) in
           (RObj Object_prototype_loc ∉ chain) ∧
           ∃ root obj, last chain = Some (RObj root) ∧
                       h !! root = Some obj ∧ proto obj = None) ∧
      ∀ k,
        (Forall (λ b, ¬ binds k b) (take d bs) →
         useKeyContext m d k = Some (Normal VUndefined)) ∧
        (∀ pre v post,
           take d bs = pre ++ (k, v) :: post → k ≠ "" →
           Forall (λ b, b.1 ≠ k) post →
           useKeyContext m d k = Some (Normal v)).
Proof.
  intros H0.
  destruct (mount_spec body fuel w bs) as (m & Hm & Hlen & [h' Hheap] & Hsees).
  exists m. split; [done|]. intros d Hd.
  destruct (scopes m !! d) as [scope|] eqn:Ed;
    [|apply lookup_ge_None in Ed; lia].
  specialize (Hsees d scope Ed). split.
  - exists scope. split; [done|]. intros o -> h chain.
    destruct Hsees as (mm & Hs & _).
    destruct (proto_chain_scope _ _ _ Hs o (chain_fuel h) eq_refl)
      as (Hall & Hroot).
    { apply scope_binds_lt in Hs. unfold chain_fuel. subst h. lia. }
    split; [|done]. intros Hin.
    rewrite Forall_forall in Hall. apply Hall in Hin.
    revert Hin. apply Object_prototype_not_scope.
    subst h. rewrite Hheap. by apply lookup_app_l_Some.
  - intros k. unfold useKeyContext. rewrite Ed.
    rewrite (getSnapshot_sees _ _ _ k Hsees). split.
    + intros Hun. by rewrite visible_unbound.
    + intros pre v post -> Hk Hpost. rewrite visible_nearest; [done|done|].
      eapply Forall_impl; [done|]. apply not_binds_other.
Qed.
End provider_claims.

(** C9. A lookup of a key bound to a store that holds [undefined]
    returns [undefined], which is also what it returns for a key that is
    not bound and under a [null] scope: the result does not tell the
    three apart. *)
Theorem bound_undefined_reads_as_absent w o K s st :
  Get (heap w) o K = Some (JStore s) →
  stores w !! s = Some st →
  value st = VUndefined →
  getSnapshot w (Some o) K = Some (Normal VUndefined) ∧
  (∀ w' o', Get (heap w') o' K = Some JUndefined →
            getSnapshot w' (Some o') K = getSnapshot w (Some o) K) ∧
  (∀ w', getSnapshot w' None K = getSnapshot w (Some o) K).
Proof.
  intros HGet Hst Hval.
  assert (Hbound : getSnapshot w (Some o) K = Some (Normal VUndefined)).
  { unfold getSnapshot, getValue. by rewrite HGet, Hst, Hval. }
  split; [done|]. split.
  - intros w' o' Hun. rewrite Hbound. unfold getSnapshot. by rewrite Hun.
  - intros w'. by rewrite Hbound.
Qed.

(** ** The claims on sample inputs *)

Example theme_world_is_first_evaluation :
  KeyContextProvider initial_world unmounted None "theme" (VString "dark")
  = Some (theme_world,
          {| storeRef := Some 0; effectDeps := None;
             memo := Some (None, "theme", Some 1) |},
          Some 1).
Proof. vm_compute. reflexivity. Qed.

Example theme_hooks_after_commit :
  runEffect inert 0 theme_world
    {| storeRef := Some 0; effectDeps := None;
       memo := Some (None, "theme", Some 1) |} (VString "dark")
  = Some (theme_world, theme_hooks, []).
Proof. vm_compute. reflexivity. Qed.

(** With [Object.prototype] behind an object, a read of ["toString"]
    finds a function there, and [getSnapshot] throws on it. *)
Example Object_prototype_behind_a_scope :
  let '(h, o) := Object_create realm (Some (RObj Object_prototype_loc)) in
  Get h o "toString" = Some (JFunction "toString") ∧
  getSnapshot {| heap := h; stores := [] |} (Some o) "toString" = Some TypeError.
Proof. vm_compute. done. Qed.

Lemma three_listeners_ok : SetData_ok (listeners three_listeners).
Proof.
  apply (subscribe_ok 3), (subscribe_ok 2), (subscribe_ok 1), createStore_ok.
Qed.

Lemma shadowing_witness :
  ∃ m, mount inert 0 initial_world
         ([] ++ ("theme", VString "dark") :: [("user", VString "Alice")]
             ++ ("theme", VString "light") :: []) = Some m ∧
       (∀ e, e ≤ 1 → useKeyContext m (0 + 1 + e) "theme"
                      = Some (Normal (VString "dark"))) ∧
       (∀ e, e ≤ 0 → useKeyContext m (0 + 1 + 1 + 1 + e) "theme"
                      = Some (Normal (VString "light"))).
Proof.
  apply (shadowing inert 0 initial_world [] [("user", VString "Alice")] []
           "theme" (VString "dark") (VString "light")).
  - discriminate.
  - repeat constructor. discriminate.
  - constructor.
Defined.

Lemma setValue_identical_noop_else_notify_once_witness :
  setValue inert 4 VNull (start three_listeners) = Some (start three_listeners) ∧
  (∃ x, setValue inert 4 (VNumber 3) (start three_listeners) = Some x ∧
        value (cell x) = VNumber 3 ∧
        listeners (cell x) = listeners three_listeners ∧
        trace x = registered (listeners three_listeners) ∧
        ∀ l, invocations l x
             = if Set_has l (listeners three_listeners) then 1 else 0) ∧
  ∃ x, setValue one_removes_three 4 (VNumber 3) (start three_listeners) = Some x ∧
       value (cell x) = VNumber 3 ∧
       ∀ l, invocations l x ≤ 1 ∧
            (invocations l x = 1 → Set_has l (listeners three_listeners) = true) ∧
            (Set_has l (listeners (cell x)) = true → invocations l x = 1).
Proof.
  split; [|split].
  - apply (proj1 (setValue_identical_noop_else_notify_once
                    inert three_listeners VNull 4)).
    reflexivity.
  - apply (proj1 (proj2 (setValue_identical_noop_else_notify_once
                           inert three_listeners (VNumber 3) 4))).
    + reflexivity.
    + exact three_listeners_ok.
    + reflexivity.
    + simpl. lia.
  - apply (proj2 (proj2 (setValue_identical_noop_else_notify_once
                           one_removes_three three_listeners (VNumber 3) 4))).
    + reflexivity.
    + exact three_listeners_ok.
    + intros [|[|l]] _ a Ha; simpl in Ha.
      * by apply elem_of_nil in Ha.
      * apply list_elem_of_singleton in Ha. by exists 3.
      * by apply elem_of_nil in Ha.
    + simpl. lia.
Defined.

Lemma absence_witness :
  getSnapshot initial_world None "locale" = Some (Normal VUndefined) ∧
  ∃ m, mount inert 0 initial_world readme_path = Some m ∧
       ∀ d, d ≤ length readme_path →
            useKeyContext m d "locale" = Some (Normal VUndefined).
Proof.
  apply (absence inert 0 initial_world readme_path "locale").
  repeat constructor; intros [? _]; discriminate.
Defined.

Lemma transparency_witness :
  ∃ m1 m2,
    mount inert 0 initial_world
      ([("theme", VString "dark")] ++ ("user", VString "Alice") :: [])
      = Some m1 ∧
    mount inert 0 initial_world ([("theme", VString "dark")] ++ []) = Some m2 ∧
    ∀ e, e ≤ 0 →
      (∃ r, useKeyContext m1 (1 + 1 + e) "theme" = Some (Normal r) ∧
            useKeyContext m2 (1 + e) "theme" = Some (Normal r)) ∧
      ∀ outer A mid,
        [("theme", VString "dark")] = outer ++ ("theme", A) :: mid →
        "theme" ≠ "" →
        Forall (λ b, b.1 ≠ "theme") mid →
        Forall (λ b, b.1 ≠ "theme") (take e ([] : list (string * Value))) →
        useKeyContext m1 (1 + 1 + e) "theme" = Some (Normal A).
Proof.
  apply (transparency inert 0 initial_world [("theme", VString "dark")] []
           "user" "theme" (VString "Alice")).
  discriminate.
Defined.

Lemma scope_identity_stable_witness :
  ∃ w' hk' scope,
    KeyContextProvider theme_world theme_hooks None "theme" (VString "dim")
      = Some (w', hk', scope) ∧
    (scope = Some 1 ↔ @None loc = None ∧ "theme" = "theme") ∧
    (@None loc = None ∧ "theme" = "theme" → heap w' = heap theme_world) ∧
    (¬ (@None loc = None ∧ "theme" = "theme") → "theme" ≠ "" →
       scope = Some (length (heap theme_world)) ∧
       heap theme_world !! length (heap theme_world) = None ∧
       is_Some (heap w' !! length (heap theme_world))) ∧
    (¬ (@None loc = None ∧ "theme" = "theme") → "theme" = "" →
       scope = None ∧ heap w' = heap theme_world).
Proof.
  apply (scope_identity_stable theme_world theme_hooks None "theme" (Some 1)
           None "theme" (VString "dim") ∅).
  - reflexivity.
  - split; [discriminate|]. exists 1. split; [reflexivity|]. simpl. lia.
  - constructor.
  - discriminate.
Defined.

(** The same instance evaluated with another key makes a new object. *)
Example theme_world_key_changed :
  KeyContextProvider theme_world theme_hooks None "colour" (VString "dark")
  = Some ({| heap := heap theme_world ++
                       [{| proto := None;
                           props := {["colour" := DataProp (JStore 0)]} |}];
             stores := stores theme_world |},
          {| storeRef := Some 0; effectDeps := Some (VString "dark");
             memo := Some (None, "colour", Some 2) |},
          Some 2).
Proof. vm_compute. reflexivity. Qed.

Lemma empty_key_pass_through_witness :
  (∃ w' hk',
     KeyContextProvider theme_world unmounted (Some 1) "" VNull
       = Some (w', hk', Some 1) ∧
     heap w' = heap theme_world ∧
     ∀ k r, getSnapshot theme_world (Some 1) k = Some r →
            getSnapshot w' (Some 1) k = Some r) ∧
  ∃ m1 m2,
    mount inert 0 theme_world
      ([("theme", VString "dark")] ++ ("", VNull) :: [("user", VString "Alice")])
      = Some m1 ∧
    mount inert 0 theme_world
      ([("theme", VString "dark")] ++ [("user", VString "Alice")]) = Some m2 ∧
    scopes m1 !! 2 = scopes m1 !! 1 ∧
    ∀ e k, e ≤ 1 →
      ∃ r, useKeyContext m1 (1 + 1 + e) k = Some (Normal r) ∧
           useKeyContext m2 (1 + e) k = Some (Normal r).
Proof.
  apply (empty_key_pass_through inert 0 theme_world unmounted (Some 1) VNull
           [("theme", VString "dark")] [("user", VString "Alice")]).
  exact I.
Defined.

Lemma removal_during_notification_skips_removed_witness :
  ∃ x, setValue one_removes_three 4 (VNumber 3) (start three_listeners) = Some x ∧
       value (cell x) = VNumber 3 ∧
       (1 ∈ trace x →
        (3 ∉ trace x) ∧
        Set_has 3 (listeners (cell x)) = false ∧
        ∃ x2, notify one_removes_three 4 (start (cell x)) = Some x2 ∧
              3 ∉ trace x2).
Proof.
  apply (removal_during_notification_skips_removed one_removes_three
           three_listeners (VNumber 3) 4 0 2 1 3).
  - exact three_listeners_ok.
  - intros [|[|l]] _ a Ha; simpl in Ha.
    + by apply elem_of_nil in Ha.
    + apply list_elem_of_singleton in Ha. by exists 3.
    + by apply elem_of_nil in Ha.
  - reflexivity.
  - reflexivity.
  - lia.
  - simpl. by left.
  - reflexivity.
  - simpl. lia.
Defined.

Example removal_during_notification_run :
  setValue one_removes_three 4 (VNumber 3) (start three_listeners)
  = Some {| cell := {| value := VNumber 3;
                       listeners := [Some 1; Some 2; None] |};
            trace := [1; 2] |}.
Proof. reflexivity. Qed.

Lemma unsubscribe_removes_then_noop_witness :
  let '(st1, unsub) := subscribe 4 three_listeners in
  let st2 := (unsub st1).2 in
  Set_has 4 (listeners st1) = true ∧
  Set_has 4 (listeners st2) = false ∧
  (∀ l', l' ≠ 4 → Set_has l' (listeners st2) = Set_has l' (listeners st1)) ∧
  value st2 = value st1 ∧
  Nat.iter 5 (λ s, (unsub s).2) st2 = st2 ∧
  unsub (Nat.iter 5 (λ s, (unsub s).2) st2) = (false, st2).
Proof.
  apply (unsubscribe_removes_then_noop three_listeners 4 5).
  exact three_listeners_ok.
Defined.

Lemma bound_undefined_reads_as_absent_witness :
  getSnapshot undefined_world (Some 1) "flag" = Some (Normal VUndefined) ∧
  (∀ w' o', Get (heap w') o' "flag" = Some JUndefined →
            getSnapshot w' (Some o') "flag"
            = getSnapshot undefined_world (Some 1) "flag") ∧
  (∀ w', getSnapshot w' None "flag"
         = getSnapshot undefined_world (Some 1) "flag").
Proof.
  apply (bound_undefined_reads_as_absent undefined_world 1 "flag" 0
           (createStore VUndefined)).
  - vm_compute. reflexivity.
  - reflexivity.
  - reflexivity.
Defined.

Example undefined_world_is_first_evaluation :
  KeyContextProvider initial_world unmounted None "flag" VUndefined
  = Some (undefined_world,
          {| storeRef := Some 0; effectDeps := None;
             memo := Some (None, "flag", Some 1) |},
          Some 1).
Proof. vm_compute. reflexivity. Qed.

Lemma null_prototype_root_witness :
  ∃ m, mount inert 0 initial_world
         [("__proto__", VNumber 1); ("toString", VNumber 2)] = Some m ∧
    ∀ d, d ≤ 2 →
      (∃ scope, scopes m !! d = Some scope ∧
         ∀ o, scope = Some o →
           let h := heap (world m) in
           let chain := proto_chain (chain_fuel h) h (RObj o) in
           (RObj Object_prototype_loc ∉ chain) ∧
           ∃ root obj, last chain = Some (RObj root) ∧
                       h !! root = Some obj ∧ proto obj = None) ∧
      ∀ k,
        (Forall (λ b, ¬ binds k b)
           (take d [("__proto__", VNumber 1); ("toString", VNumber 2)]) →
         useKeyContext m d k = Some (Normal VUndefined)) ∧
        (∀ pre v post,
           take d [("__proto__", VNumber 1); ("toString", VNumber 2)]
             = pre ++ (k, v) :: post → k ≠ "" →
           Forall (λ b, b.1 ≠ k) post →
           useKeyContext m d k = Some (Normal v)).
Proof.
  apply (null_prototype_root inert 0 initial_world
           [("__proto__", VNumber 1); ("toString", VNumber 2)]).
  reflexivity.
Defined.

(** The names of [Object.prototype] members are keys like any other. *)
Example builtin_names_are_plain_keys :
  match mount inert 0 initial_world
          [("__proto__", VNumber 1); ("toString", VNumber 2)] with
  | Some m =>
      useKeyContext m 1 "__proto__" = Some (Normal (VNumber 1)) ∧
      useKeyContext m 1 "toString" = Some (Normal VUndefined) ∧
      useKeyContext m 1 "hasOwnProperty" = Some (Normal VUndefined) ∧
      useKeyContext m 2 "toString" = Some (Normal (VNumber 2)) ∧
      useKeyContext m 2 "__proto__" = Some (Normal (VNumber 1)) ∧
      useKeyContext m 0 "constructor" = Some (Normal VUndefined)
  | None => False
  end.
Proof. vm_compute. done. Qed.

(** The scenario of the README. *)
Example readme_scenario :
  match mount inert 0 initial_world readme_path with
  | Some m =>
      useKeyContext m 3 "theme" = Some (Normal (VString "light")) ∧
      useKeyContext m 3 "user" = Some (Normal (VString "Alice")) ∧
      useKeyContext m 2 "theme" = Some (Normal (VString "dark")) ∧
      useKeyContext m 0 "theme" = Some (Normal VUndefined)
  | None => False
  end.
Proof. vm_compute. done. Qed.

(** * Further properties of the store *)

Lemma Set_delete_snoc l (s : SetData) :
  Some l ∉ s → Set_delete l (s ++ [Some l]) = (true, s ++ [None]).
Proof.
  induction s as [|e s IH]; intros Hnot; simpl.
  - by destruct (decide (Some l = Some l)).
  - apply not_elem_of_cons in Hnot as [Hne Hnot].
    destruct (decide (e = Some l)); [congruence|]. by rewrite IH.
Qed.

Lemma Set_delete_found l (s : SetData) :
  Some l ∈ s → (Set_delete l s).1 = true.
Proof.
  induction s as [|e s IH]; intros Hin; [by apply elem_of_nil in Hin|].
  simpl. destruct (decide (e = Some l)); [done|].
  apply elem_of_cons in Hin as [?|Hin]; [congruence|].
  specialize (IH Hin). by destruct (Set_delete l s).
Qed.

Lemma registered_app (s1 s2 : SetData) :
  registered (s1 ++ s2) = registered s1 ++ registered s2.
Proof. apply omap_app. Qed.

Lemma Set_add_new l (s : SetData) : Some l ∉ s → Set_add l s = s ++ [Some l].
Proof. intros H. unfold Set_add. by rewrite (proj2 (Set_has_false l s) H). Qed.

Lemma Set_add_old l (s : SetData) : Some l ∈ s → Set_add l s = s.
Proof. intros H. unfold Set_add. by rewrite (proj2 (Set_has_true l s) H). Qed.

(** X2. Subscribing a listener that is registered already leaves the
    store as it is: the set holds one entry for both subscriptions. The
    unsubscribe function of the first one then removes the listener for
    both, and the one of the second finds nothing to delete. *)
Theorem subscribe_twice_registers_once (st : Store) (l : Listener) :
  SetData_ok (listeners st) →
  let '(st1, unsub1) := subscribe l st in
  let '(st2, unsub2) := subscribe l st1 in
  st2 = st1 ∧
  (unsub1 st2).1 = true ∧
  Set_has l (listeners (unsub1 st2).2) = false ∧
  unsub2 (unsub1 st2).2 = (false, (unsub1 st2).2).
Proof.
  intros Hok. unfold subscribe. cbv beta iota. cbn [value listeners].
  rewrite (Set_add_old l (Set_add l (listeners st))) by apply Set_add_has.
  set (st1 := {| value := value st; listeners := Set_add l (listeners st) |}).
  assert (Hin : Some l ∈ listeners st1) by apply Set_add_has.
  assert (Hgone : Some l ∉ listeners (unsubscribe l st1).2).
  { rewrite unsubscribe_listeners. apply Set_delete_gone. by apply Set_add_ok. }
  split; [done|]. split.
  - unfold unsubscribe. rewrite (surjective_pairing (Set_delete _ _)). simpl.
    by apply Set_delete_found.
  - split; [by apply Set_has_false|]. by apply unsubscribe_absent.
Qed.

(** X3. For a listener that was not registered, subscribing and then
    calling the returned function finds the listener, and leaves the
    value and the registered listeners, in their order, as they were. *)
Theorem subscribe_unsubscribe_round_trip (st : Store) (l : Listener) :
  Set_has l (listeners st) = false →
  let '(st1, unsub) := subscribe l st in
  Set_has l (listeners st1) = true ∧
  (unsub st1).1 = true ∧
  value (unsub st1).2 = value st ∧
  registered (listeners (unsub st1).2) = registered (listeners st).
Proof.
  intros Hnot%Set_has_false. simpl.
  split; [apply Set_has_true, Set_add_has|].
  unfold unsubscribe. simpl.
  rewrite (Set_add_new _ _ Hnot), (Set_delete_snoc _ _ Hnot). simpl.
  split; [done|]. split; [done|].
  rewrite registered_app. simpl. apply app_nil_r.
Qed.

Section store_extras.
Variable body : Listener → list Action.

(** Listeners whose bodies leave every running store as it is are
    invoked in insertion order from [index] on. *)
Lemma forEach_settled fuel : ∀ index x,
  (∀ k l f y, index ≤ k → listeners (cell x) !! k = Some (Some l) →
      cell y = cell x → run_actions f (body l) y = Some y) →
  length (listeners (cell x)) - index < fuel →
  forEach body fuel index x =
    Some {| cell := cell x;
            trace := trace x ++ registered (drop index (listeners (cell x))) |}.
Proof.
  induction fuel as [|fuel IH]; intros index x Hbody Hlen; [lia|].
  simpl. destruct (listeners (cell x) !! index) as [[l|]|] eqn:E.
  - rewrite (Hbody index l _ (invoked l x)); [|lia|done|done].
    apply lookup_lt_Some in E as Hlt.
    rewrite IH; simpl; [| |lia].
    + rewrite (drop_S _ _ _ E). simpl. by rewrite <- app_assoc.
    + intros k l' f y Hk Hl' Hy. apply (Hbody k); [lia|done|done].
  - apply lookup_lt_Some in E as Hlt.
    rewrite IH; [| |lia].
    + by rewrite (drop_S _ _ _ E).
    + intros k l' f y Hk Hl' Hy. apply (Hbody k); [lia|done|done].
  - apply lookup_ge_None in E. rewrite drop_ge; [|done].
    destruct x. simpl. by rewrite app_nil_r.
Qed.

Lemma run_actions_same_value forEachListener v acts : ∀ y,
  Forall (λ a, a = CallSetValue v) acts →
  value (cell y) = v →
  run_actions forEachListener acts y = Some y.
Proof.
  induction acts as [|a acts IH]; intros y Hall Hv; [done|].
  apply Forall_cons in Hall as [-> Hall]. simpl.
  unfold setValue_with. rewrite Hv, Object_is_refl. by apply IH.
Qed.

(** X1. [notify] invokes every registered listener once, in insertion
    order, and leaves the store as it is, where [setValue] with the value
    the store holds invokes none. The listeners are ones that leave the
    store alone. *)
Theorem notify_reaches_all_without_change (st : Store) (fuel : nat) :
  SetData_ok (listeners st) →
  (∀ l, Some l ∈ listeners st → body l = []) →
  length (listeners st) < fuel →
  notify body fuel (start st)
    = Some {| cell := st; trace := registered (listeners st) |} ∧
  (∀ l, invocations l {| cell := st; trace := registered (listeners st) |}
        = if Set_has l (listeners st) then 1 else 0) ∧
  setValue body fuel (value st) (start st) = Some (start st).
Proof.
  intros Hok Hbody Hfuel. unfold notify. split; [|split].
  - rewrite forEach_inert; simpl; [done|done|lia].
  - intros l. unfold invocations. simpl.
    rewrite NoDup_occurrences; [|by apply registered_NoDup].
    unfold Set_has.
    by rewrite (bool_decide_ext _ _ (registered_elem_of l (listeners st))).
  - unfold setValue, setValue_with. simpl. by rewrite Object_is_refl.
Qed.

(** X4. The value is stored before any listener runs: listeners that
    call [setValue] with the value they are notified of find it stored
    and start no second notification. Each registered listener is invoked
    exactly once. *)
Theorem setValue_again_from_listener_is_noop
    (st : Store) (newValue : Value) (fuel : nat) :
  SetData_ok (listeners st) →
  (∀ l, Some l ∈ listeners st →
        Forall (λ a, a = CallSetValue newValue) (body l)) →
  Object_is (value st) newValue = false →
  length (listeners st) < fuel →
  setValue body fuel newValue (start st)
    = Some {| cell := {| value := newValue; listeners := listeners st |};
              trace := registered (listeners st) |}.
Proof.
  intros Hok Hbody Hne Hfuel. unfold setValue, setValue_with. simpl.
  rewrite Hne. rewrite forEach_settled; simpl; [done| |lia].
  intros k l f y _ Hl Hy. apply (run_actions_same_value _ newValue).
  - apply Hbody. by eapply list_elem_of_lookup_2.
  - by rewrite Hy.
Qed.
End store_extras.

Section live_iteration.
Variable body : Listener → list Action.

Lemma forEach_late_subscriber a c i fuel : ∀ index x,
  SetData_ok (listeners (cell x)) →
  listeners (cell x) !! i = Some (Some a) →
  body a = [CallSubscribe c] →
  body c = [] →
  Some c ∉ listeners (cell x) →
  (∀ l, Some l ∈ listeners (cell x) → l ≠ a → body l = []) →
  index ≤ i →
  length (listeners (cell x)) + 1 - index < fuel →
  forEach body fuel index x =
    Some {| cell := {| value := value (cell x);
                       listeners := listeners (cell x) ++ [Some c] |};
            trace := trace x ++ registered (drop index (listeners (cell x)))
                             ++ [c] |}.
Proof.
  induction fuel as [|fuel IH]; intros index x Hok Ha Hbody_a Hbody_c Hc Hrest Hidx Hfuel;
    [lia|].
  apply lookup_lt_Some in Ha as Hi.
  simpl. destruct (decide (index = i)) as [->|Hne].
  - rewrite Ha, Hbody_a. simpl.
    rewrite forEach_settled; simpl.
    + rewrite (Set_add_new _ _ Hc). f_equal. f_equal.
      rewrite (drop_S _ _ _ Ha), drop_app_le by lia.
      rewrite registered_app. simpl. by rewrite <- !app_assoc.
    + rewrite (Set_add_new _ _ Hc). intros k l f y Hk Hl _.
      assert (Hl_body : body l = []); [|by rewrite Hl_body].
      apply lookup_snoc_Some in Hl as [[Hlt Hl]|[_ Hl]].
      * apply Hrest; [by eapply list_elem_of_lookup_2|].
        intros ->. assert (k = i) by (by eapply Hok). lia.
      * by injection Hl as <-.
    + rewrite (Set_add_new _ _ Hc), length_app. simpl. lia.
  - destruct (listeners (cell x) !! index) as [[l|]|] eqn:E.
    + assert (Hl : body l = []).
      { apply Hrest; [by eapply list_elem_of_lookup_2|].
        intros ->. by assert (index = i) by (by eapply Hok). }
      rewrite Hl. simpl. rewrite IH; simpl; try done; try lia.
      rewrite (drop_S _ _ _ E). simpl. by rewrite <- !app_assoc.
    + rewrite IH; try done; try lia. by rewrite (drop_S _ _ _ E).
    + apply lookup_ge_None in E. lia.
Qed.

(** X5. A listener subscribed by a listener during a notification is
    invoked in that same notification, after the listeners that were
    registered when it began, and is registered afterwards. *)
Theorem subscriber_added_during_notification_is_notified
    (st : Store) (newValue : Value) (fuel i : nat) (a c : Listener) :
  SetData_ok (listeners st) →
  listeners st !! i = Some (Some a) →
  body a = [CallSubscribe c] →
  body c = [] →
  Set_has c (listeners st) = false →
  (∀ l, Some l ∈ listeners st → l ≠ a → body l = []) →
  Object_is (value st) newValue = false →
  length (listeners st) + 1 < fuel →
  setValue body fuel newValue (start st)
    = Some {| cell := {| value := newValue;
                         listeners := listeners st ++ [Some c] |};
              trace := registered (listeners st) ++ [c] |}.
Proof.
  intros Hok Ha Hbody_a Hbody_c Hc%Set_has_false Hrest Hne Hfuel.
  unfold setValue, setValue_with. simpl. rewrite Hne.
  rewrite (forEach_late_subscriber a c i); simpl; try done; lia.
Qed.

Lemma forEach_renewing_listener l fuel : ∀ index x k,
  SetData_ok (listeners (cell x)) →
  body l = [CallUnsubscribe l; CallSubscribe l] →
  (∀ l', Some l' ∈ listeners (cell x) → l' ≠ l → body l' = []) →
  index ≤ k →
  listeners (cell x) !! k = Some (Some l) →
  forEach body fuel index x = None.
Proof.
  induction fuel as [|fuel IH]; intros index x k Hok Hbody Hrest Hidx Hk; [done|].
  apply lookup_lt_Some in Hk as Hlt.
  simpl. destruct (listeners (cell x) !! index) as [[l'|]|] eqn:E.
  - destruct (decide (l' = l)) as [->|Hne].
    + rewrite Hbody. simpl.
      assert (Hgone : Some l ∉ (Set_delete l (listeners (cell x))).2)
        by (by apply Set_delete_gone).
      destruct (Set_delete_shrinks l (listeners (cell x))) as [Hlen Hsh].
      apply (IH _ _ (length (listeners (cell x))));
        unfold with_cell; cbn [cell listeners value invoked];
        rewrite ?unsubscribe_listeners, ?(Set_add_new _ _ Hgone).
      * rewrite <- (Set_add_new _ _ Hgone). by apply Set_add_ok, Set_delete_ok.
      * done.
      * intros l' [Hl'|Hl']%elem_of_app Hne;
          [|apply list_elem_of_singleton in Hl'; congruence].
        apply Hrest; [|done].
        eapply shrinks_elem_of; [apply Set_delete_shrinks|done].
      * apply lookup_lt_Some in E. lia.
      * by rewrite lookup_app_r, Hlen, Nat.sub_diag by lia.
    + rewrite (Hrest l'); [|by eapply list_elem_of_lookup_2|done]. simpl.
      apply (IH _ _ k); simpl; try done.
      destruct (decide (index = k)) as [->|?]; [congruence|lia].
  - apply (IH _ _ k); try done.
    destruct (decide (index = k)) as [->|?]; [congruence|lia].
  - apply lookup_ge_None in E. lia.
Qed.

(** X6. A registered listener that unsubscribes and subscribes itself
    again when it is invoked gets a new entry behind the running index
    each time: the notification reaches it again and again, and
    [setValue] with a new value does not return, whatever the number of
    steps it is given. *)
Theorem renewing_listener_never_returns
    (st : Store) (newValue : Value) (i : nat) (l : Listener) :
  SetData_ok (listeners st) →
  listeners st !! i = Some (Some l) →
  body l = [CallUnsubscribe l; CallSubscribe l] →
  (∀ l', Some l' ∈ listeners st → l' ≠ l → body l' = []) →
  Object_is (value st) newValue = false →
  ∀ fuel, setValue body fuel newValue (start st) = None.
Proof.
  intros Hok Hl Hbody Hrest Hne fuel.
  unfold setValue, setValue_with. simpl. rewrite Hne.
  apply (forEach_renewing_listener l fuel 0 _ i); simpl; try done. lia.
Qed.
End live_iteration.

(** * Further properties of the provider *)

Lemma computeScope_allocates h parentScope m keyName s :
  scope_binds h parentScope m →
  ∃ h' scope, computeScope h parentScope keyName s = Some (h ++ h', scope) ∧
              length h' ≤ 1.
Proof.
  intros Hs. destruct (decide (keyName = "")) as [->|Hk].
  - exists [], parentScope. unfold computeScope. simpl.
    rewrite app_nil_r. split; [done|lia].
  - rewrite (computeScope_extend _ _ _ _ s Hs Hk). eexists _, _.
    split; [done|]. simpl. lia.
Qed.

(** X9. An evaluation of a provider changes no object and no store
    that exists: it appends at most one object to the heap and, on the
    first evaluation only, one store. Once an instance has its store, every
    later evaluation keeps it. *)
Theorem KeyContextProvider_only_allocates w hk parentScope keyName value m :
  scope_binds (heap w) parentScope m →
  ∃ w' hk' scope,
    KeyContextProvider w hk parentScope keyName value = Some (w', hk', scope) ∧
    (∃ h', heap w' = heap w ++ h' ∧ length h' ≤ 1) ∧
    (∃ sts', stores w' = stores w ++ sts' ∧ length sts' ≤ 1) ∧
    (∀ s, storeRef hk = Some s → storeRef hk' = Some s ∧ stores w' = stores w).
Proof.
  intros Hs. unfold KeyContextProvider.
  assert (Hst : ∃ sts s sts',
             match storeRef hk with
             | Some s => (stores w, s)
             | None => (stores w ++ [createStore value], length (stores w))
             end = (sts, s) ∧ sts = stores w ++ sts' ∧ length sts' ≤ 1 ∧
             ∀ s0, storeRef hk = Some s0 → s = s0 ∧ sts = stores w).
  { destruct (storeRef hk) as [s|].
    - exists (stores w), s, []. rewrite app_nil_r.
      split; [done|]. split; [done|]. split; [simpl; lia|].
      by intros s0 [= ->].
    - exists (stores w ++ [createStore value]), (length (stores w)),
        [createStore value].
      split; [done|]. split; [done|]. split; [simpl; lia|]. by intros s0. }
  destruct Hst as (sts & s & sts' & -> & -> & Hlen & Hkeep).
  destruct (computeScope_allocates _ _ _ keyName s Hs) as (h' & sc & Hc & Hh').
  assert (Hdone : ∀ h0 sc0, (∃ h'', h0 = heap w ++ h'' ∧ length h'' ≤ 1) →
            ∃ w' hk' scope,
              Some ({| heap := h0; stores := stores w ++ sts' |},
                    {| storeRef := Some s; effectDeps := effectDeps hk;
                       memo := Some (parentScope, keyName, sc0) |}, sc0)
                = Some (w', hk', scope) ∧
              (∃ h1, heap w' = heap w ++ h1 ∧ length h1 ≤ 1) ∧
              (∃ sts0, stores w' = stores w ++ sts0 ∧ length sts0 ≤ 1) ∧
              (∀ s0, storeRef hk = Some s0 →
                     storeRef hk' = Some s0 ∧ stores w' = stores w)).
  { intros h0 sc0 Hh0. do 3 eexists. split; [done|]. simpl.
    split; [done|]. split; [by eexists|].
    intros s0 Hs0. destruct (Hkeep s0 Hs0) as [-> Heq]. by split. }
  destruct (memo hk) as [[[p k] cached]|].
  - destruct (decide (p = parentScope ∧ k = keyName)).
    + apply Hdone. exists []. rewrite app_nil_r. split; [done|simpl; lia].
    + rewrite Hc. apply Hdone. by eexists.
  - rewrite Hc. apply Hdone. by eexists.
Qed.

(** X10. When the key of a provider changes to another non-empty key,
    the new scope object binds the new key to the store the instance had
    before, with the listeners it has; every other key, the old one among
    them, resolves below the provider as it does above it. The objects
    made earlier stay as they are. *)
Theorem provider_key_change_rebinds_store
    w hk s p0 k0 r0 parentScope keyName value m :
  storeRef hk = Some s →
  memo hk = Some (p0, k0, r0) →
  scope_binds (heap w) parentScope m →
  keyName ≠ "" →
  keyName ≠ k0 →
  ∃ w' hk',
    KeyContextProvider w hk parentScope keyName value
      = Some (w', hk', Some (length (heap w))) ∧
    storeRef hk' = Some s ∧
    stores w' = stores w ∧
    Get (heap w') (length (heap w)) keyName = Some (JStore s) ∧
    (∀ k, k ≠ keyName →
       Get (heap w') (length (heap w)) k
         = Some (default JUndefined (JStore <$> m !! k))) ∧
    (∀ o, o < length (heap w) → heap w' !! o = heap w !! o).
Proof.
  intros Href Hmemo Hs Hk Hne. unfold KeyContextProvider.
  rewrite Href, Hmemo.
  destruct (decide (p0 = parentScope ∧ k0 = keyName)) as [[_ ?]|_]; [congruence|].
  rewrite (computeScope_extend _ _ _ _ s Hs Hk).
  do 2 eexists. split; [done|]. cbn [heap stores storeRef].
  assert (Hnew : scope_binds
            (heap w ++ [{| proto := RObj <$> parentScope;
                           props := {[keyName := DataProp (JStore s)]} |}])
            (Some (length (heap w))) (<[keyName := s]> m)).
  { econstructor.
    - by rewrite lookup_app_r, Nat.sub_diag.
    - intros p ->. by eapply scope_binds_lt.
    - by apply scope_binds_app. }
  split; [done|]. split; [done|]. split; [|split].
  - rewrite (Get_scope _ _ _ _ Hnew). by rewrite lookup_insert_eq.
  - intros k Hkk. rewrite (Get_scope _ _ _ _ Hnew).
    by rewrite lookup_insert_ne.
  - intros o Ho. by rewrite lookup_app_l.
Qed.

Section provider_extras.
Variable body : Listener → list Action.

(** X7. Evaluating a provider again with the props it was last
    committed with changes nothing: the world and the hook cells are the
    same, the scope is the same object, the effect does not run, and no
    listener is invoked. *)
Theorem reevaluation_with_same_props_is_noop w hk s v p k r fuel :
  storeRef hk = Some s →
  effectDeps hk = Some v →
  memo hk = Some (p, k, r) →
  KeyContextProvider w hk p k v = Some (w, hk, r) ∧
  runEffect body fuel w hk v = Some (w, hk, []).
Proof.
  intros Href Heff Hmemo. split.
  - unfold KeyContextProvider. rewrite Href, Hmemo.
    destruct (decide (p = p ∧ k = k)) as [_|Hne]; [|by destruct Hne].
    destruct w, hk. simpl in *. by subst.
  - unfold runEffect. by rewrite Heff, Object_is_refl.
Qed.

(** X8. A provider evaluated with a new [value] leaves its store alone
    while it renders, so that a lookup in that pass still reads the old
    value. The effect then stores the new value and notifies each listener
    of that store once; a lookup that resolves to the store reads the new
    value, and one that resolves to another store reads what it read
    before. The listeners are ones that leave the store alone. *)
Theorem provider_value_update w hk s st p k r v fuel :
  storeRef hk = Some s →
  effectDeps hk = Some (value st) →
  memo hk = Some (p, k, r) →
  stores w !! s = Some st →
  Object_is (value st) v = false →
  (∀ l, Some l ∈ listeners st → body l = []) →
  length (listeners st) < fuel →
  KeyContextProvider w hk p k v = Some (w, hk, r) ∧
  ∃ w2 hk2,
    runEffect body fuel w hk v = Some (w2, hk2, registered (listeners st)) ∧
    heap w2 = heap w ∧
    stores w2 = <[s := {| value := v; listeners := listeners st |}]> (stores w) ∧
    hk2 = {| storeRef := Some s; effectDeps := Some v; memo := memo hk |} ∧
    ∀ o key s',
      Get (heap w) o key = Some (JStore s') →
      if decide (s' = s)
      then getSnapshot w (Some o) key = Some (Normal (value st)) ∧
           getSnapshot w2 (Some o) key = Some (Normal v)
      else getSnapshot w2 (Some o) key = getSnapshot w (Some o) key.
Proof.
  intros Href Heff Hmemo Hst Hne Hbody Hfuel. split.
  - unfold KeyContextProvider. rewrite Href, Hmemo.
    destruct (decide (p = p ∧ k = k)) as [_|Hn]; [|by destruct Hn].
    destruct w, hk. simpl in *. by subst.
  - unfold runEffect. rewrite Heff, Hne, Href, Hst.
    unfold setValue, setValue_with. simpl. rewrite Hne.
    rewrite forEach_inert; simpl; [|done|lia].
    do 2 eexists. split; [done|]. simpl. repeat split; try done.
    intros o key s' HGet. unfold getSnapshot. simpl. rewrite HGet. simpl.
    apply lookup_lt_Some in Hst as Hlt.
    destruct (decide (s' = s)) as [->|Hs'].
    + rewrite Hst, list_lookup_insert_eq by done. done.
    + by rewrite list_lookup_insert_ne.
Qed.
End provider_extras.

(** * Further properties of the consumer *)

Lemma Set_add_other l l' (s : SetData) :
  l' ≠ l → Some l' ∈ Set_add l s ↔ Some l' ∈ s.
Proof.
  intros Hne. unfold Set_add. destruct (Set_has l s); [done|].
  rewrite elem_of_app, list_elem_of_singleton. split; [|by left].
  intros [?|?]; [done|congruence].
Qed.

Lemma getSnapshot_with_store w s f scope k :
  (∀ st, value (f st) = value st) →
  getSnapshot (with_store s f w) scope k = getSnapshot w scope k.
Proof.
  intros Hf. unfold getSnapshot, with_store. simpl.
  destruct scope as [o|]; [|done].
  destruct (Get (heap w) o k) as [store|]; [|done].
  destruct store as [| |s'| |]; simpl; try done.
  destruct (decide (s = s')) as [->|Hne].
  - rewrite list_lookup_alter_eq.
    assert (Hopt : ∀ x : option Store,
              match f <$> x with
              | Some st => Some (Normal (getValue st))
              | None => None
              end = match x with
                    | Some st => Some (Normal (getValue st))
                    | None => None
                    end).
    { intros [st|]; [|done]. simpl. unfold getValue. by rewrite Hf. }
    apply Hopt.
  - by rewrite list_lookup_alter_ne.
Qed.

(** X12. Where the key resolves to a store, [subscribe] of
    [useKeyContext] registers the listener in that store and changes
    nothing else: no object, no other store, no value a lookup reads. The
    function it returns removes the listener from that store again and
    keeps the listeners the store had. *)
Theorem subscribe_registers_in_resolved_store w o K s st l :
  Get (heap w) o K = Some (JStore s) →
  stores w !! s = Some st →
  SetData_ok (listeners st) →
  ∃ w1 unsub,
    useKeyContext_subscribe w (Some o) K l = Some (Normal (w1, unsub)) ∧
    heap w1 = heap w ∧
    stores w1 !! s = Some (subscribe l st).1 ∧
    (∀ s', s' ≠ s → stores w1 !! s' = stores w !! s') ∧
    (∀ scope k, getSnapshot w1 scope k = getSnapshot w scope k) ∧
    heap (unsub w1) = heap w ∧
    (∀ s', s' ≠ s → stores (unsub w1) !! s' = stores w !! s') ∧
    ∃ st', stores (unsub w1) !! s = Some st' ∧
           value st' = value st ∧
           Set_has l (listeners st') = false ∧
           ∀ l', l' ≠ l → Set_has l' (listeners st') = Set_has l' (listeners st).
Proof.
  intros HGet Hst Hok. unfold useKeyContext_subscribe.
  rewrite HGet. simpl. rewrite Hst. unfold sref in *.
  do 2 eexists. split; [done|]. split; [done|]. split.
  { unfold with_store. cbn [stores heap]. by rewrite list_lookup_alter_eq, Hst. }
  split.
  { intros s' Hs'. unfold with_store. cbn [stores heap]. by rewrite list_lookup_alter_ne. }
  split; [intros scope k; by apply getSnapshot_with_store|].
  split; [done|]. split.
  { intros s' Hs'. unfold with_store. cbn [stores heap]. by rewrite !list_lookup_alter_ne. }
  exists (unsubscribe l (subscribe l st).1).2. split.
  { unfold with_store. cbn [stores heap]. by rewrite !list_lookup_alter_eq, Hst. }
  split; [by rewrite unsubscribe_value|]. split.
  - apply Set_has_false. rewrite unsubscribe_listeners.
    apply Set_delete_gone. by apply Set_add_ok.
  - intros l' Hne. unfold Set_has. apply bool_decide_ext.
    rewrite unsubscribe_listeners, Set_delete_other by done.
    by apply Set_add_other.
Qed.

Lemma sees_unbound_Get w o env K :
  sees w (Some o) env → env !! K = None →
  Get (heap w) o K = Some JUndefined.
Proof.
  intros (m & Hs & Hm) Henv. rewrite (Get_scope _ _ _ _ Hs).
  specialize (Hm K). destruct (m !! K) as [s|]; [|done].
  destruct Hm as (st & _ & Hsome). congruence.
Qed.

(** ** Stores along a path *)

Lemma bind_refs_app bs1 : ∀ next m bs2,
  bind_refs next m (bs1 ++ bs2)
  = bind_refs (next + length bs1) (bind_refs next m bs1) bs2.
Proof.
  induction bs1 as [|[k v] bs1 IH]; intros next m bs2; simpl.
  - by rewrite Nat.add_0_r.
  - rewrite IH. f_equal. lia.
Qed.

Lemma bind_refs_other bs : ∀ next m K,
  Forall (λ b, b.1 ≠ K) bs → bind_refs next m bs !! K = m !! K.
Proof.
  induction bs as [|[k v] bs IH]; intros next m K Hall; [done|].
  apply Forall_cons in Hall as [Hk Hall]. simpl in *.
  rewrite IH by done. destruct (decide (k = "")); [done|].
  by rewrite lookup_insert_ne.
Qed.

Lemma bind_refs_nearest next m pre K v post :
  K ≠ "" → Forall (λ b, b.1 ≠ K) post →
  bind_refs next m (pre ++ (K, v) :: post) !! K = Some (next + length pre).
Proof.
  intros HK Hpost. rewrite bind_refs_app. simpl.
  rewrite bind_refs_other by done.
  destruct (decide (K = "")); [done|]. by rewrite lookup_insert_eq.
Qed.

Lemma KeyContextProvider_mount_refs w ambient m k v :
  scope_binds (heap w) ambient m →
  ∃ w' scope,
    KeyContextProvider w unmounted ambient k v
      = Some (w', {| storeRef := Some (length (stores w)); effectDeps := None;
                     memo := Some (ambient, k, scope) |}, scope) ∧
    (∃ h', heap w' = heap w ++ h') ∧
    length (heap w') = length (heap w) + (if decide (k = "") then 0 else 1) ∧
    stores w' = stores w ++ [createStore v] ∧
    scope_binds (heap w') scope
      (if decide (k = "") then m else <[k := length (stores w)]> m).
Proof.
  intros Hs. unfold KeyContextProvider. cbn [storeRef memo unmounted effectDeps].
  destruct (decide (k = "")) as [->|Hne].
  - unfold computeScope. simpl. do 2 eexists. split; [done|]. simpl.
    split; [by exists []; rewrite app_nil_r|]. split; [lia|]. done.
  - rewrite (computeScope_extend _ _ _ _ _ Hs Hne).
    do 2 eexists. split; [done|]. cbn [heap stores].
    split; [by eexists|]. split; [by rewrite length_app|]. split; [done|].
    econstructor.
    + by rewrite lookup_app_r, Nat.sub_diag.
    + intros p ->. by eapply scope_binds_lt.
    + by apply scope_binds_app.
Qed.

Lemma render_chain_refs bs : ∀ w ambient m,
  scope_binds (heap w) ambient m →
  ∃ w' rendered,
    render_chain w ambient bs = Some (w', rendered) ∧
    (∃ h', heap w' = heap w ++ h') ∧
    length (heap w')
      = length (heap w) + length (filter (λ b, b.1 ≠ "") bs) ∧
    stores w' = stores w ++ (createStore <$> bs.*2) ∧
    length rendered = length bs ∧
    ∀ d hk scope, rendered !! d = Some (hk, scope) →
      storeRef hk = Some (length (stores w) + d) ∧
      effectDeps hk = None ∧
      scope_binds (heap w') scope
        (bind_refs (length (stores w)) m (take (S d) bs)).
Proof.
  induction bs as [|[k v] bs IH]; intros w ambient m Hs.
  - exists w, []. split; [done|]. split; [by exists []; rewrite app_nil_r|].
    split; [simpl; lia|]. split; [by rewrite app_nil_r|]. split; [done|].
    by intros [|d] ??.
  - destruct (KeyContextProvider_mount_refs w ambient m k v Hs)
      as (w1 & scope & Hrender & [h1 Hh1] & Hlen1 & Hst1 & Hs1).
    destruct (IH w1 scope _ Hs1)
      as (w2 & below & Hchain & [h2 Hh2] & Hlen2 & Hst2 & Hlen & Hbelow).
    cbn [render_chain]. rewrite Hrender, Hchain.
    eexists w2, (_ :: below). split; [done|].
    split; [exists (h1 ++ h2); by rewrite Hh2, Hh1, app_assoc|].
    split.
    { rewrite Hlen2, Hlen1, filter_cons. simpl.
      destruct (decide (k = "")) as [->|Hk].
      - destruct (decide ("" ≠ "")); [done|]. lia.
      - destruct (decide (k ≠ "")); [|done]. simpl. lia. }
    split; [by rewrite Hst2, Hst1, <- app_assoc|].
    split; [by simpl; rewrite Hlen|].
    assert (Hnext : length (stores w1) = S (length (stores w))).
    { rewrite Hst1, length_app. simpl. lia. }
    intros [|d] hk' scope' Hd; simpl in Hd.
    + injection Hd as <- <-. rewrite Nat.add_0_r. split; [done|]. split; [done|].
      simpl. rewrite Hh2. by apply scope_binds_app.
    + destruct (Hbelow d hk' scope' Hd) as (Href' & Heff' & Hs').
      split; [rewrite Href', Hnext; f_equal; lia|]. split; [done|].
      rewrite Hnext in Hs'. done.
Qed.

Section path_extras.
Variable body : Listener → list Action.

Lemma runEffect_mount_hooks fuel w hk v s :
  storeRef hk = Some s →
  effectDeps hk = None →
  stores w !! s = Some (createStore v) →
  runEffect body fuel w hk v
    = Some (w, {| storeRef := storeRef hk; effectDeps := Some v;
                  memo := memo hk |}, []).
Proof.
  intros Href Heff Hst. unfold runEffect. rewrite Heff, Href, Hst.
  unfold setValue, setValue_with. simpl. rewrite Object_is_refl.
  simpl. rewrite list_insert_id by done. by destruct w.
Qed.

Lemma commit_chain_mount_hooks fuel w nodes :
  (∀ i hk v, nodes !! i = Some (hk, v) →
     effectDeps hk = None ∧
     ∃ s, storeRef hk = Some s ∧ stores w !! s = Some (createStore v)) →
  commit_chain body fuel w nodes
    = Some (w, (λ n, {| storeRef := storeRef n.1; effectDeps := Some n.2;
                        memo := memo n.1 |}) <$> nodes).
Proof.
  induction nodes as [|[hk v] nodes IH]; intros Hnodes; [done|].
  cbn [commit_chain]. rewrite IH.
  - destruct (Hnodes 0 hk v eq_refl) as (Heff & s & Href & Hst).
    by rewrite (runEffect_mount_hooks fuel w hk v s Href Heff Hst).
  - intros i hk' v' Hi. by apply (Hnodes (S i)).
Qed.

Lemma mount_refs fuel w bs :
  ∃ m, mount body fuel w bs = Some m ∧
       length (scopes m) = S (length bs) ∧
       stores (world m) = stores w ++ (createStore <$> bs.*2) ∧
       (∃ h', heap (world m) = heap w ++ h') ∧
       length (heap (world m))
         = length (heap w) + length (filter (λ b, b.1 ≠ "") bs) ∧
       (∀ d scope, scopes m !! d = Some scope →
          scope_binds (heap (world m)) scope
            (bind_refs (length (stores w)) ∅ (take d bs))) ∧
       ∀ i k v, bs !! i = Some (k, v) →
         ∃ hk, instances m !! i = Some hk ∧
               storeRef hk = Some (length (stores w) + i) ∧
               effectDeps hk = Some v.
Proof.
  destruct (render_chain_refs bs w None ∅ (scope_null _))
    as (w1 & rendered & Hchain & Hh1 & Hlen1 & Hst1 & Hlen & Hrendered).
  assert (Hnodes : ∀ i hk v, zip (rendered.*1) (bs.*2) !! i = Some (hk, v) →
            effectDeps hk = None ∧
            ∃ s, storeRef hk = Some s ∧ stores w1 !! s = Some (createStore v)).
  { intros i hk v [hk0 [v0 (Heq & Hhk & Hv)]]%lookup_zip_with_Some.
    injection Heq as -> ->.
    apply list_lookup_fmap_Some in Hhk as ([hk' scope] & -> & Hi).
    destruct (Hrendered i hk' scope Hi) as (Href & Heff & _).
    split; [done|]. exists (length (stores w) + i). split; [done|].
    rewrite Hst1, lookup_app_r by lia.
    replace (length (stores w) + i - length (stores w)) with i by lia.
    by rewrite list_lookup_fmap, Hv. }
  unfold mount. rewrite Hchain, (commit_chain_mount_hooks fuel w1 _ Hnodes).
  eexists. split; [done|]. cbn [world scopes instances].
  split; [by rewrite length_cons, length_fmap, Hlen|].
  split; [done|]. split; [done|]. split; [done|]. split.
  - intros [|d] scope Hd; simpl in Hd.
    + injection Hd as <-. rewrite take_0. constructor.
    + apply list_lookup_fmap_Some in Hd as ([hk scope'] & -> & Hd).
      by destruct (Hrendered d hk scope' Hd) as (_ & _ & Hs).
  - intros i k v Hi.
    assert (is_Some (rendered !! i)) as [[hk scope] Hr].
    { apply lookup_lt_is_Some. rewrite Hlen. by eapply lookup_lt_Some. }
    destruct (Hrendered i hk scope Hr) as (Href & _ & _).
    eexists. split; [|split].
    + rewrite list_lookup_fmap.
      assert (Hz : zip (rendered.*1) (bs.*2) !! i = Some (hk, v)).
      { apply lookup_zip_with_Some. exists hk, v. split; [done|].
        by rewrite !list_lookup_fmap, Hr, Hi. }
      by rewrite Hz.
    + done.
    + done.
Qed.

(** X14. Mounting a path always succeeds. It makes one store for each
    provider, in order, seeded with the provider's value and without
    listeners, also for a provider with an empty key; it makes one scope
    object for each provider with a non-empty key and none for the others.
    Each instance keeps its own store, and its effect has run for its
    value. *)
Theorem mount_allocates_per_provider fuel w bs :
  ∃ m, mount body fuel w bs = Some m ∧
       stores (world m) = stores w ++ (createStore <$> bs.*2) ∧
       (∃ h', heap (world m) = heap w ++ h') ∧
       length (heap (world m))
         = length (heap w) + length (filter (λ b, b.1 ≠ "") bs) ∧
       (∀ d scope, scopes m !! d = Some scope →
          scope_binds (heap (world m)) scope
            (bind_refs (length (stores w)) ∅ (take d bs))) ∧
       ∀ i k v, bs !! i = Some (k, v) →
         ∃ hk, instances m !! i = Some hk ∧
               storeRef hk = Some (length (stores w) + i) ∧
               effectDeps hk = Some v.
Proof.
  destruct (mount_refs fuel w bs) as (m & Hm & _ & Hrest).
  by exists m.
Qed.

(** X13. Below two providers of the same key, a consumer of the key
    subscribes to the store of the inner one. A new value of the outer
    provider is stored without the consumer's listener being invoked, and
    the consumer still reads the inner value; a new value of the inner
    provider invokes the listener once, and the consumer reads it. *)
Theorem consumer_is_notified_by_nearest_provider_only
    fuel w pre mid post K A B A' B' l :
  K ≠ "" →
  Forall (λ b, b.1 ≠ K) mid →
  Forall (λ b, b.1 ≠ K) post →
  Object_is A A' = false →
  Object_is B B' = false →
  body l = [] →
  1 < fuel →
  ∃ m scope w1 unsub hk_outer hk_inner,
    mount body fuel w (pre ++ (K, A) :: mid ++ (K, B) :: post) = Some m ∧
    scopes m !! length (pre ++ (K, A) :: mid ++ (K, B) :: post) = Some scope ∧
    useKeyContext_subscribe (world m) scope K l = Some (Normal (w1, unsub)) ∧
    instances m !! length pre = Some hk_outer ∧
    instances m !! (length pre + 1 + length mid) = Some hk_inner ∧
    (∃ w2 hk2, runEffect body fuel w1 hk_outer A' = Some (w2, hk2, []) ∧
               getSnapshot w2 scope K = Some (Normal B)) ∧
    (∃ w2 hk2, runEffect body fuel w1 hk_inner B' = Some (w2, hk2, [l]) ∧
               getSnapshot w2 scope K = Some (Normal B')).
Proof.
  intros HK Hmid Hpost HA HB Hl Hfuel.
  set (bs := pre ++ (K, A) :: mid ++ (K, B) :: post).
  destruct (mount_refs fuel w bs)
    as (m & Hm & Hlen & Hst & _ & _ & Hscopes & Hinst).
  unfold sref in *.
  set (outer := length (stores w) + length pre).
  set (inner := length (stores w) + (length pre + 1 + length mid)).
  assert (Hbs : bs = (pre ++ (K, A) :: mid) ++ (K, B) :: post)
    by (subst bs; by rewrite <- app_assoc).
  assert (Hb_outer : bs !! length pre = Some (K, A))
    by (subst bs; by apply list_lookup_middle).
  assert (Hb_inner : bs !! (length pre + 1 + length mid) = Some (K, B)).
  { rewrite Hbs. apply list_lookup_middle. rewrite length_app. simpl. lia. }
  destruct (scopes m !! length bs) as [scope|] eqn:Esc;
    [|apply lookup_ge_None in Esc; lia].
  specialize (Hscopes _ _ Esc). rewrite take_ge in Hscopes by done.
  assert (Hres : bind_refs (length (stores w)) ∅ bs !! K = Some inner).
  { rewrite Hbs, bind_refs_nearest by done. subst inner.
    rewrite length_app. simpl. f_equal. lia. }
  unfold sref in *.
  destruct scope as [o|];
    [|apply scope_binds_null_inv in Hscopes; rewrite Hscopes in Hres;
      by rewrite lookup_empty in Hres].
  assert (HGet : Get (heap (world m)) o K = Some (JStore inner)).
  { rewrite (Get_scope _ _ _ _ Hscopes). unfold sref in *. by rewrite Hres. }
  assert (Hstore : ∀ i k v, bs !! i = Some (k, v) →
            stores (world m) !! (length (stores w) + i) = Some (createStore v)).
  { intros i k v Hi. rewrite Hst, lookup_app_r by lia.
    replace (length (stores w) + i - length (stores w)) with i by lia.
    by rewrite !list_lookup_fmap, Hi. }
  assert (Hs_outer := Hstore _ _ _ Hb_outer).
  assert (Hs_inner := Hstore _ _ _ Hb_inner).
  destruct (Hinst _ _ _ Hb_outer) as (hk_outer & Hi_outer & Href_outer & Heff_outer).
  destruct (Hinst _ _ _ Hb_inner) as (hk_inner & Hi_inner & Href_inner & Heff_inner).
  fold outer in Hs_outer, Href_outer. fold inner in Hs_inner, Href_inner.
  assert (Hne : outer ≠ inner) by (subst outer inner; lia).
  set (w1 := with_store inner (λ st, (subscribe l st).1) (world m)).
  assert (Hw1_outer : stores w1 !! outer = Some (createStore A)).
  { subst w1. unfold with_store. cbn [stores].
    by rewrite list_lookup_alter_ne. }
  assert (Hw1_inner : stores w1 !! inner
                      = Some {| value := B; listeners := [Some l] |}).
  { subst w1. unfold with_store. cbn [stores].
    by rewrite list_lookup_alter_eq, Hs_inner. }
  exists m, (Some o), w1, (with_store inner (λ st, (unsubscribe l st).2)),
    hk_outer, hk_inner.
  split; [done|]. split; [done|]. split.
  { unfold useKeyContext_subscribe. rewrite HGet.
    cbv beta iota delta [truthy]. unfold sref. by rewrite Hs_inner. }
  split; [done|]. split; [done|]. split.
  - unfold runEffect. rewrite Heff_outer, HA, Href_outer. unfold sref.
    rewrite Hw1_outer.
    unfold setValue, setValue_with. simpl. rewrite HA.
    destruct fuel as [|fuel']; [lia|]. simpl.
    do 2 eexists. split; [done|].
    unfold getSnapshot. cbn [heap stores].
    replace (heap w1) with (heap (world m)) by done.
    rewrite HGet. cbv beta iota delta [truthy]. unfold sref.
    rewrite list_lookup_insert_ne by done.
    by rewrite list_lookup_alter_eq, Hs_inner.
  - unfold runEffect. rewrite Heff_inner, HB, Href_inner. unfold sref.
    rewrite Hw1_inner.
    unfold setValue, setValue_with. simpl. rewrite HB.
    rewrite forEach_inert; simpl; [| |lia].
    + do 2 eexists. split; [done|].
      unfold getSnapshot. cbn [heap stores].
      replace (heap w1) with (heap (world m)) by done.
      rewrite HGet. cbv beta iota delta [truthy]. unfold sref.
      rewrite list_lookup_insert_eq; [done|].
      rewrite length_alter. by eapply lookup_lt_Some.
    + intros l' Hl'%list_elem_of_singleton. by injection Hl' as ->.
Qed.

(** X11. Where no provider on the path binds the key, [subscribe] of
    [useKeyContext] touches nothing and returns a function that does
    nothing: the consumer registers nowhere. *)
Theorem subscribe_to_unbound_key_is_inert fuel w bs K l :
  Forall (λ b, ¬ binds K b) bs →
  ∃ m, mount body fuel w bs = Some m ∧
       ∀ d, d ≤ length bs →
         ∃ scope unsub,
           scopes m !! d = Some scope ∧
           useKeyContext_subscribe (world m) scope K l
             = Some (Normal (world m, unsub)) ∧
           ∀ w', unsub w' = w'.
Proof.
  intros Hbs.
  destruct (mount_spec body fuel w bs) as (m & Hm & Hlen & _ & Hsees).
  exists m. split; [done|]. intros d Hd.
  destruct (scopes m !! d) as [scope|] eqn:Ed;
    [|apply lookup_ge_None in Ed; lia].
  specialize (Hsees d scope Ed).
  assert (Hun : visible (take d bs) !! K = None)
    by (apply visible_unbound; by apply Forall_take).
  destruct scope as [o|].
  - eexists _, _. split; [done|]. unfold useKeyContext_subscribe.
    rewrite (sees_unbound_Get _ _ _ _ Hsees Hun). simpl. done.
  - by eexists _, _.
Qed.
End path_extras.

(** * Order of notification *)

Lemma filter_ne_absent (l : Listener) (t : list Listener) :
  l ∉ t → filter (λ l', l' ≠ l) t = t.
Proof.
  induction t as [|a t IH]; intros Hnot; [done|].
  apply not_elem_of_cons in Hnot as [Hne Hnot].
  rewrite filter_cons_True by done. by rewrite IH.
Qed.

Lemma registered_delete l (s : SetData) :
  SetData_ok s →
  registered (Set_delete l s).2 = filter (λ l', l' ≠ l) (registered s).
Proof.
  induction s as [|e s IH]; intros Hok; [done|].
  specialize (IH (SetData_ok_tail _ _ Hok)).
  cbn [Set_delete]. destruct (decide (e = Some l)) as [->|Hne]; cbn [snd].
  - change (registered (None :: s)) with (registered s).
    change (registered (Some l :: s)) with (l :: registered s).
    rewrite filter_cons. destruct (decide (l ≠ l)); [done|].
    symmetry. apply filter_ne_absent.
    intros Hl'. apply registered_elem_of in Hl'.
    apply list_elem_of_lookup_1 in Hl' as [i Hi].
    specialize (Hok 0 (S i) l). simpl in Hok. by specialize (Hok eq_refl Hi).
  - destruct (Set_delete l s) as [found s'] eqn:E. cbn [snd] in *.
    destruct e as [l'|].
    + change (registered (Some l' :: s')) with (l' :: registered s').
      change (registered (Some l' :: s)) with (l' :: registered s).
      rewrite filter_cons. destruct (decide (l' ≠ l)); [by rewrite IH|].
      exfalso. apply Hne. f_equal. by destruct (decide (l' = l)).
    + done.
Qed.

(** X15. Listeners are kept in the order they subscribed in.
    Unsubscribing one keeps the others in their order, and subscribing it
    again puts it last, so that it is the last to be notified from then
    on. *)
Theorem resubscribing_moves_listener_last (st : Store) (l : Listener) :
  SetData_ok (listeners st) →
  let st1 := (unsubscribe l st).2 in
  let st2 := (subscribe l st1).1 in
  registered (listeners st1) = filter (λ l', l' ≠ l) (registered (listeners st)) ∧
  registered (listeners st2)
    = filter (λ l', l' ≠ l) (registered (listeners st)) ++ [l] ∧
  value st2 = value st.
Proof.
  intros Hok. cbv zeta.
  assert (Hgone : Some l ∉ listeners (unsubscribe l st).2).
  { rewrite unsubscribe_listeners. by apply Set_delete_gone. }
  split; [|split].
  - rewrite unsubscribe_listeners. by apply registered_delete.
  - simpl. rewrite (Set_add_new _ _ Hgone), registered_app.
    rewrite unsubscribe_listeners, registered_delete by done. done.
  - simpl. apply unsubscribe_value.
Qed.

(** * The further properties on sample inputs *)

Lemma notify_reaches_all_without_change_witness :
  notify inert 4 (start three_listeners)
    = Some {| cell := three_listeners;
              trace := registered (listeners three_listeners) |} ∧
  (∀ l, invocations l {| cell := three_listeners;
                         trace := registered (listeners three_listeners) |}
        = if Set_has l (listeners three_listeners) then 1 else 0) ∧
  setValue inert 4 (value three_listeners) (start three_listeners)
    = Some (start three_listeners).
Proof.
  apply (notify_reaches_all_without_change inert three_listeners 4).
  - exact three_listeners_ok.
  - reflexivity.
  - simpl. lia.
Defined.

Lemma subscribe_twice_registers_once_witness :
  let '(st1, unsub1) := subscribe 9 three_listeners in
  let '(st2, unsub2) := subscribe 9 st1 in
  st2 = st1 ∧
  (unsub1 st2).1 = true ∧
  Set_has 9 (listeners (unsub1 st2).2) = false ∧
  unsub2 (unsub1 st2).2 = (false, (unsub1 st2).2).
Proof.
  apply (subscribe_twice_registers_once three_listeners 9).
  exact three_listeners_ok.
Defined.

Lemma subscribe_unsubscribe_round_trip_witness :
  let '(st1, unsub) := subscribe 9 three_listeners in
  Set_has 9 (listeners st1) = true ∧
  (unsub st1).1 = true ∧
  value (unsub st1).2 = value three_listeners ∧
  registered (listeners (unsub st1).2) = registered (listeners three_listeners).
Proof.
  apply (subscribe_unsubscribe_round_trip three_listeners 9).
  reflexivity.
Defined.

Lemma setValue_again_from_listener_is_noop_witness :
  setValue (all_set_again (VNumber 3)) 4 (VNumber 3) (start three_listeners)
    = Some {| cell := {| value := VNumber 3;
                         listeners := listeners three_listeners |};
              trace := registered (listeners three_listeners) |}.
Proof.
  apply (setValue_again_from_listener_is_noop (all_set_again (VNumber 3))
           three_listeners (VNumber 3) 4).
  - exact three_listeners_ok.
  - intros l _. repeat constructor.
  - reflexivity.
  - simpl. lia.
Defined.

Lemma subscriber_added_during_notification_is_notified_witness :
  setValue one_adds_four 5 (VNumber 3) (start three_listeners)
    = Some {| cell := {| value := VNumber 3;
                         listeners := listeners three_listeners ++ [Some 4] |};
              trace := registered (listeners three_listeners) ++ [4] |}.
Proof.
  apply (subscriber_added_during_notification_is_notified one_adds_four
           three_listeners (VNumber 3) 5 0 1 4).
  - exact three_listeners_ok.
  - reflexivity.
  - reflexivity.
  - reflexivity.
  - reflexivity.
  - intros [|[|l]] _ Hne; [reflexivity|congruence|reflexivity].
  - reflexivity.
  - simpl. lia.
Defined.

Lemma renewing_listener_never_returns_witness :
  setValue two_renews_itself 1000 (VNumber 3) (start three_listeners) = None.
Proof.
  apply (renewing_listener_never_returns two_renews_itself three_listeners
           (VNumber 3) 1 2).
  - exact three_listeners_ok.
  - reflexivity.
  - reflexivity.
  - intros [|[|[|l]]] _ Hne; [reflexivity|reflexivity|congruence|reflexivity].
  - reflexivity.
Defined.

Lemma reevaluation_with_same_props_is_noop_witness :
  KeyContextProvider theme_world theme_hooks None "theme" (VString "dark")
    = Some (theme_world, theme_hooks, Some 1) ∧
  runEffect inert 0 theme_world theme_hooks (VString "dark")
    = Some (theme_world, theme_hooks, []).
Proof.
  apply (reevaluation_with_same_props_is_noop inert theme_world theme_hooks 0
           (VString "dark") None "theme" (Some 1) 0); reflexivity.
Defined.

Lemma provider_value_update_witness :
  KeyContextProvider theme_world theme_hooks None "theme" (VString "dim")
    = Some (theme_world, theme_hooks, Some 1) ∧
  ∃ w2 hk2,
    runEffect inert 1 theme_world theme_hooks (VString "dim")
      = Some (w2, hk2, registered (listeners (createStore (VString "dark")))) ∧
    heap w2 = heap theme_world ∧
    stores w2 = <[0 := {| value := VString "dim";
                          listeners := listeners (createStore (VString "dark")) |}]>
                  (stores theme_world) ∧
    hk2 = {| storeRef := Some 0; effectDeps := Some (VString "dim");
             memo := memo theme_hooks |} ∧
    ∀ o key s',
      Get (heap theme_world) o key = Some (JStore s') →
      if decide (s' = 0)
      then getSnapshot theme_world (Some o) key
             = Some (Normal (value (createStore (VString "dark")))) ∧
           getSnapshot w2 (Some o) key = Some (Normal (VString "dim"))
      else getSnapshot w2 (Some o) key = getSnapshot theme_world (Some o) key.
Proof.
  apply (provider_value_update inert theme_world theme_hooks 0
           (createStore (VString "dark")) None "theme" (Some 1)
           (VString "dim") 1); try reflexivity.
  simpl. lia.
Defined.

Lemma KeyContextProvider_only_allocates_witness :
  ∃ w' hk' scope,
    KeyContextProvider theme_world theme_hooks None "colour" (VString "dark")
      = Some (w', hk', scope) ∧
    (∃ h', heap w' = heap theme_world ++ h' ∧ length h' ≤ 1) ∧
    (∃ sts', stores w' = stores theme_world ++ sts' ∧ length sts' ≤ 1) ∧
    (∀ s, storeRef theme_hooks = Some s →
          storeRef hk' = Some s ∧ stores w' = stores theme_world).
Proof.
  apply (KeyContextProvider_only_allocates theme_world theme_hooks None
           "colour" (VString "dark") ∅).
  constructor.
Defined.

Lemma provider_key_change_rebinds_store_witness :
  ∃ w' hk',
    KeyContextProvider theme_world theme_hooks None "colour" (VString "dark")
      = Some (w', hk', Some (length (heap theme_world))) ∧
    storeRef hk' = Some 0 ∧
    stores w' = stores theme_world ∧
    Get (heap w') (length (heap theme_world)) "colour" = Some (JStore 0) ∧
    (∀ k, k ≠ "colour" →
       Get (heap w') (length (heap theme_world)) k
         = Some (default JUndefined
                   (JStore <$> (∅ : gmap string sref) !! k))) ∧
    (∀ o, o < length (heap theme_world) →
          heap w' !! o = heap theme_world !! o).
Proof.
  apply (provider_key_change_rebinds_store theme_world theme_hooks 0
           None "theme" (Some 1) None "colour" (VString "dark") ∅).
  - reflexivity.
  - reflexivity.
  - constructor.
  - discriminate.
  - discriminate.
Defined.

Lemma subscribe_to_unbound_key_is_inert_witness :
  ∃ m, mount inert 0 initial_world readme_path = Some m ∧
       ∀ d, d ≤ length readme_path →
         ∃ scope unsub,
           scopes m !! d = Some scope ∧
           useKeyContext_subscribe (world m) scope "locale" 7
             = Some (Normal (world m, unsub)) ∧
           ∀ w', unsub w' = w'.
Proof.
  apply (subscribe_to_unbound_key_is_inert inert 0 initial_world readme_path
           "locale" 7).
  repeat constructor; intros [? _]; discriminate.
Defined.

Lemma subscribe_registers_in_resolved_store_witness :
  ∃ w1 unsub,
    useKeyContext_subscribe theme_world (Some 1) "theme" 7
      = Some (Normal (w1, unsub)) ∧
    heap w1 = heap theme_world ∧
    stores w1 !! 0 = Some (subscribe 7 (createStore (VString "dark"))).1 ∧
    (∀ s', s' ≠ 0 → stores w1 !! s' = stores theme_world !! s') ∧
    (∀ scope k, getSnapshot w1 scope k = getSnapshot theme_world scope k) ∧
    heap (unsub w1) = heap theme_world ∧
    (∀ s', s' ≠ 0 → stores (unsub w1) !! s' = stores theme_world !! s') ∧
    ∃ st', stores (unsub w1) !! 0 = Some st' ∧
           value st' = value (createStore (VString "dark")) ∧
           Set_has 7 (listeners st') = false ∧
           ∀ l', l' ≠ 7 →
             Set_has l' (listeners st')
             = Set_has l' (listeners (createStore (VString "dark"))).
Proof.
  apply (subscribe_registers_in_resolved_store theme_world 1 "theme" 0
           (createStore (VString "dark")) 7).
  - vm_compute. reflexivity.
  - reflexivity.
  - apply createStore_ok.
Defined.

Lemma consumer_is_notified_by_nearest_provider_only_witness :
  ∃ m scope w1 unsub hk_outer hk_inner,
    mount inert 2 initial_world
      ([] ++ ("theme", VString "dark") :: [("user", VString "Alice")]
          ++ ("theme", VString "light") :: []) = Some m ∧
    scopes m !! length
      (([] : list (string * Value)) ++ ("theme", VString "dark")
          :: [("user", VString "Alice")] ++ ("theme", VString "light") :: [])
      = Some scope ∧
    useKeyContext_subscribe (world m) scope "theme" 7
      = Some (Normal (w1, unsub)) ∧
    instances m !! length ([] : list (string * Value)) = Some hk_outer ∧
    instances m !! (length ([] : list (string * Value)) + 1
                    + length [("user", VString "Alice")]) = Some hk_inner ∧
    (∃ w2 hk2, runEffect inert 2 w1 hk_outer (VString "dim")
                 = Some (w2, hk2, []) ∧
               getSnapshot w2 scope "theme" = Some (Normal (VString "light"))) ∧
    (∃ w2 hk2, runEffect inert 2 w1 hk_inner (VString "bright")
                 = Some (w2, hk2, [7]) ∧
               getSnapshot w2 scope "theme" = Some (Normal (VString "bright"))).
Proof.
  apply (consumer_is_notified_by_nearest_provider_only inert 2 initial_world
           [] [("user", VString "Alice")] [] "theme"
           (VString "dark") (VString "light") (VString "dim") (VString "bright")
           7).
  - discriminate.
  - repeat constructor. discriminate.
  - constructor.
  - reflexivity.
  - reflexivity.
  - reflexivity.
  - lia.
Defined.

Lemma resubscribing_moves_listener_last_witness :
  let st1 := (unsubscribe 2 three_listeners).2 in
  let st2 := (subscribe 2 st1).1 in
  registered (listeners st1)
    = filter (λ l', l' ≠ 2) (registered (listeners three_listeners)) ∧
  registered (listeners st2)
    = filter (λ l', l' ≠ 2) (registered (listeners three_listeners)) ++ [2] ∧
  value st2 = value three_listeners.
Proof.
  apply (resubscribing_moves_listener_last three_listeners 2).
  exact three_listeners_ok.
Defined.

Example resubscribing_order :
  registered (listeners (subscribe 2 (unsubscribe 2 three_listeners).2).1)
  = [1; 3; 2].
Proof. reflexivity. Qed.
